(** * Natural-neighbour geometry: a shallow embedding of
    [metpy/interpolate/geometry.py]

    The Python module works on triangles, circumcircles and polygon
    boundaries of a Delaunay triangulation.  Every function of the module
    that the properties below talk about is translated here, statement by
    statement, into a Rocq definition that keeps the source's name.

    Modelling conventions.
    - Numbers.  Coordinates, areas and radii are Python/numpy floats.  They
      are idealised as real numbers ([R]): rounding, overflow and NaN
      *inputs* are outside the model.  The one NaN the source creates itself
      ([np.nan], the undefined circumradius) is kept as the constructor
      [NaN] of [fval]; as in IEEE arithmetic every comparison with it is
      false.
    - Exceptions.  A function that can raise returns a [result]; the monad
      aborts at the first [Raise], as Python does.
    - numpy indexing.  An integer index [i] into an array of length [n]
      denotes position [i] when [0 <= i < n], position [n + i] when
      [-n <= i < 0], and raises [IndexError] otherwise ([np_get]).
    - External collaborators.  [scipy.spatial.Delaunay] is the record
      [Delaunay] (with its point-location query as a field), and the radius
      query of [scipy.spatial.cKDTree] is a parameter of
      [find_natural_neighbors]; [ball_query] is a reference implementation
      of its documented contract.
    - Python sets are [gset]s; their iteration order is [elements], so
      results that depend on it are only stated up to membership. *)

From Stdlib Require Import Reals Lra Lia ZArith List Permutation.
From stdpp Require Import gmap list.

(* ================================================================== *)
(** * Part I: the embedding                                             *)
(* ================================================================== *)

(** ** Python results and exceptions *)

Inductive exn : Set :=
  | ZeroDivisionError
  | IndexError
  | ValueError
  | KeyError.

Inductive result (A : Type) : Type :=
  | Ok (a : A)
  | Raise (e : exn).

Arguments Ok {A} a.
Arguments Raise {A} e.

#[global] Instance result_ret : MRet result := λ A, @Ok A.

#[global] Instance result_bind : MBind result :=
  λ A B f m, match m with Ok a => f a | Raise e => Raise e end.

(** A [for] loop whose body may raise: the state is threaded through the
    iterations and the first exception ends the loop. *)
Fixpoint foldM {A S : Type} (f : S → A → result S) (s : S) (l : list A)
  : result S :=
  match l with
  | [] => Ok s
  | x :: l' => s' ← f s x; foldM f s' l'
  end.

(** [enumerate(l)] *)
Definition enumerate {A : Type} (l : list A) : list (nat * A) :=
  zip (seq 0 (length l)) l.

(** [l[i]] for a loop index [i >= 0]. *)
Definition py_get {A : Type} (l : list A) (i : nat) : result A :=
  match l !! i with
  | Some x => Ok x
  | None => Raise IndexError
  end.

(** numpy's (and Python's) treatment of a possibly negative index. *)
Definition np_index (n : nat) (i : Z) : result nat :=
  if bool_decide (0 ≤ i < Z.of_nat n)%Z then Ok (Z.to_nat i)
  else if bool_decide (- Z.of_nat n ≤ i < 0)%Z then Ok (Z.to_nat (Z.of_nat n + i))
  else Raise IndexError.

Definition np_get {A : Type} (a : list A) (i : Z) : result A :=
  k ← np_index (length a) i; py_get a k.

(** [list.remove(x)]: drops the first element equal to [x], [ValueError]
    when there is none. *)
Fixpoint py_remove {A : Type} `{EqDecision A} (x : A) (l : list A)
  : result (list A) :=
  match l with
  | [] => Raise ValueError
  | y :: l' =>
      if bool_decide (y = x) then Ok l'
      else l'' ← py_remove x l'; Ok (y :: l'')
  end.

(** ** Numbers *)

Definition point : Type := R * R.

(** A float that may be the undefined sentinel [np.nan]. *)
Inductive fval : Type :=
  | Num (x : R)
  | NaN.

Definition Rltb (x y : R) : bool := if Rlt_dec x y then true else false.
Definition Rleb (x y : R) : bool := if Rle_dec x y then true else false.
Definition Reqb (x y : R) : bool := if Req_dec_T x y then true else false.

(** [d < r] where [r] may be [np.nan]. *)
Definition lt_fval (d : R) (r : fval) : bool :=
  match r with
  | Num x => Rltb d x
  | NaN => false
  end.

(** [math.sqrt]: a negative argument is a [ValueError] (math domain error). *)
Definition math_sqrt (x : R) : result R :=
  if Rltb x 0 then Raise ValueError else Ok (sqrt x).

(** ** Triangle geometry *)

Section TriangleGeometry.
Local Open Scope R_scope.

Definition triangle_area (pt1 pt2 pt3 : point) : R :=
  let a := 0 in
  let a := a + (pt1.1 * pt2.2 - pt2.1 * pt1.2) in
  let a := a + (pt2.1 * pt3.2 - pt3.1 * pt2.2) in
  let a := a + (pt3.1 * pt1.2 - pt1.1 * pt3.2) in
  Rabs a / 2.

Definition dist_2 (x0 y0 x1 y1 : R) : R :=
  let d0 := x1 - x0 in
  let d1 := y1 - y0 in
  d0 * d0 + d1 * d1.

Definition distance (p0 p1 : point) : result R :=
  math_sqrt (dist_2 p0.1 p0.2 p1.1 p1.2).

Definition circumcircle_radius_2 (pt0 pt1 pt2 : point) : result fval :=
  a ← distance pt0 pt1;
  b ← distance pt1 pt2;
  c ← distance pt2 pt0;
  let t_area := triangle_area pt0 pt1 pt2 in
  let prod2 := a * b * c in
  Ok (if Rltb 0 t_area
      then Num (prod2 * prod2 / (16 * t_area * t_area))
      else NaN).

Definition circumcircle_radius (pt0 pt1 pt2 : point) : result fval :=
  a ← distance pt0 pt1;
  b ← distance pt1 pt2;
  c ← distance pt2 pt0;
  let t_area := triangle_area pt0 pt1 pt2 in
  Ok (if Rltb 0 t_area
      then Num ((a * b * c) / (4 * t_area))
      else NaN).

(** The denominator [d_div] of the circumcentre formula. *)
Definition d_div (pt0 pt1 pt2 : point) : R :=
  let a_x := pt0.1 in
  let a_y := pt0.2 in
  let b_x := pt1.1 in
  let b_y := pt1.2 in
  let c_x := pt2.1 in
  let c_y := pt2.2 in
  let bc_y_diff := b_y - c_y in
  let ca_y_diff := c_y - a_y in
  let ab_y_diff := a_y - b_y in
  a_x * bc_y_diff + b_x * ca_y_diff + c_x * ab_y_diff.

Definition circumcenter (pt0 pt1 pt2 : point) : result point :=
  let a_x := pt0.1 in
  let a_y := pt0.2 in
  let b_x := pt1.1 in
  let b_y := pt1.2 in
  let c_x := pt2.1 in
  let c_y := pt2.2 in
  let bc_y_diff := b_y - c_y in
  let ca_y_diff := c_y - a_y in
  let ab_y_diff := a_y - b_y in
  let cb_x_diff := c_x - b_x in
  let ac_x_diff := a_x - c_x in
  let ba_x_diff := b_x - a_x in
  let d := d_div pt0 pt1 pt2 in
  if Reqb d 0 then Raise ZeroDivisionError
  else
    let d_inv := 0.5 / d in
    let a_mag := a_x * a_x + a_y * a_y in
    let b_mag := b_x * b_x + b_y * b_y in
    let c_mag := c_x * c_x + c_y * c_y in
    let cx := (a_mag * bc_y_diff + b_mag * ca_y_diff + c_mag * ab_y_diff) * d_inv in
    let cy := (a_mag * cb_x_diff + b_mag * ac_x_diff + c_mag * ba_x_diff) * d_inv in
    Ok (cx, cy).

(** The closed form [circumcenter] returns, written without the guard. *)
Definition circumcenter_formula (pt0 pt1 pt2 : point) : point :=
  let a_mag := pt0.1 * pt0.1 + pt0.2 * pt0.2 in
  let b_mag := pt1.1 * pt1.1 + pt1.2 * pt1.2 in
  let c_mag := pt2.1 * pt2.1 + pt2.2 * pt2.2 in
  let d_inv := 0.5 / d_div pt0 pt1 pt2 in
  ((a_mag * (pt1.2 - pt2.2) + b_mag * (pt2.2 - pt0.2) + c_mag * (pt0.2 - pt1.2)) * d_inv,
   (a_mag * (pt2.1 - pt1.1) + b_mag * (pt0.1 - pt2.1) + c_mag * (pt1.1 - pt0.1)) * d_inv).

(** Euclidean length of the segment [p q], as the specification writes
    [|pq|]. *)
Definition seg_len (p q : point) : R :=
  sqrt ((q.1 - p.1) * (q.1 - p.1) + (q.2 - p.2) * (q.2 - p.2)).


End TriangleGeometry.

(** ** The triangulation object *)

(** The fields of [scipy.spatial.Delaunay] the module reads.  A row of
    [simplices] holds three indices into [points]; a row of [neighbors]
    holds the three adjacent simplices, [-1] meaning "no neighbor". *)
Record Delaunay : Type := {
  points : list point;
  simplices : list (Z * Z * Z);
  neighbors : list (Z * Z * Z);
  find_simplex : point → Z
}.

Definition row_list (r : Z * Z * Z) : list Z := [r.1.1; r.1.2; r.2].

(** [row[i]] for [i] in [range(3)]. *)
Definition row_nth (r : Z * Z * Z) (i : nat) : Z :=
  match i with
  | 0 => r.1.1
  | 1 => r.1.2
  | _ => r.2
  end.

(** [tri.points[simplices]]: the three vertices of a simplex row. *)
Definition simplex_points (tri : Delaunay) (s : Z * Z * Z)
  : result (point * point * point) :=
  p0 ← np_get (points tri) s.1.1;
  p1 ← np_get (points tri) s.1.2;
  p2 ← np_get (points tri) s.2;
  Ok (p0, p1, p2).

(** ** Natural-neighbour discovery *)

Record TriangleInfo : Type := { cc : point; r : fval }.

Section NaturalNeighbors.

(** [cKDTree(data).query_ball_point(x, r)]. *)
Variable query_ball_point : list point → point → fval → list nat.

Definition in_triangulation (tri : Delaunay) (data : list point) : list bool :=
  map (λ p, bool_decide (0 ≤ find_simplex tri p)%Z) data.

(** [{key: [] for key in range(n)}] *)
Definition empty_members (n : nat) : gmap nat (list nat) :=
  list_to_map (map (λ key, (key, [])) (seq 0 n)).

(** The body of [for qualifier in qualifiers]. *)
Definition append_member (in_tri : list bool) (i : nat)
    (members : gmap nat (list nat)) (qualifier : nat)
  : result (gmap nat (list nat)) :=
  flag ← py_get in_tri qualifier;
  if flag : bool then
    match members !! qualifier with
    | Some l => Ok (<[qualifier := l ++ [i]]> members)
    | None => Raise KeyError
    end
  else Ok members.

(** The body of [for i, simplices in enumerate(tri.simplices)]. *)
Definition visit_simplex (tri : Delaunay) (data : list point)
    (in_tri : list bool)
    (st : gmap nat (list nat) * gmap nat TriangleInfo) (entry : nat * (Z * Z * Z))
  : result (gmap nat (list nat) * gmap nat TriangleInfo) :=
  let '(members, triangle_info) := st in
  let '(i, simplices) := entry in
  ps ← simplex_points tri simplices;
  cc ← circumcenter ps.1.1 ps.1.2 ps.2;
  r ← circumcircle_radius ps.1.1 ps.1.2 ps.2;
  let triangle_info := <[i := {| cc := cc; r := r |}]> triangle_info in
  let qualifiers := query_ball_point data cc r in
  members ← foldM (append_member in_tri i) members qualifiers;
  Ok (members, triangle_info).

Definition find_natural_neighbors (tri : Delaunay) (grid_points : list point)
  : result (gmap nat (list nat) * gmap nat TriangleInfo) :=
  let data := grid_points in
  let in_tri := in_triangulation tri data in
  let triangle_info := ∅ in
  let members := empty_members (length data) in
  foldM (visit_simplex tri data in_tri) (members, triangle_info)
        (enumerate (simplices tri)).

End NaturalNeighbors.

(** Reference radius query: the indices of the points of [data] in the
    closed ball around [x]; nothing is within an undefined radius. *)
Definition ball_query (data : list point) (x : point) (r : fval) : list nat :=
  match r with
  | Num rad =>
      List.filter
        (λ g, match data !! g with
              | Some p => Rleb (sqrt (dist_2 p.1 p.2 x.1 x.2)) rad
              | None => false
              end)
        (seq 0 (length data))
  | NaN => []
  end.

(** [candidates] of [find_nn_triangles_point]: the neighbor row of
    [cur_tri], united with the rows that row selects, minus [-1]. *)
Definition candidate_pool (tri : Delaunay) (cur_tri : Z) : result (gset Z) :=
  row ← np_get (neighbors tri) cur_tri;
  let candidates : gset Z := list_to_set (row_list row) in
  (* tri.neighbors[tri.neighbors[cur_tri]]: three rows, selected by value *)
  r0 ← np_get (neighbors tri) row.1.1;
  r1 ← np_get (neighbors tri) row.1.2;
  r2 ← np_get (neighbors tri) row.2;
  let candidates := candidates ∪ list_to_set (row_list r0 ++ row_list r1 ++ row_list r2) in
  Ok (candidates ∖ {[ (-1)%Z ]}).

(** The test in the body of [for neighbor in candidates]. *)
Definition in_circumcircle (tri : Delaunay) (point : point) (neighbor : Z)
  : result bool :=
  s ← np_get (simplices tri) neighbor;
  triangle ← simplex_points tri s;
  c ← circumcenter triangle.1.1 triangle.1.2 triangle.2;
  let '(cur_x, cur_y) := c in
  r ← circumcircle_radius_2 triangle.1.1 triangle.1.2 triangle.2;
  Ok (lt_fval (dist_2 point.1 point.2 cur_x cur_y) r).

Definition find_nn_triangles_point (tri : Delaunay) (cur_tri : Z) (point : point)
  : result (list Z) :=
  let nn := [] in
  candidates ← candidate_pool tri cur_tri;
  foldM (λ nn neighbor,
           inside ← in_circumcircle tri point neighbor;
           Ok (if inside : bool then nn ++ [neighbor] else nn))
        nn (elements candidates).

(** ** Boundary assembly *)

Definition Edge : Type := Z * Z.

(** The [if]/[elif]/[else] of [find_local_boundary]. *)
Definition add_edge (edges : list Edge) (pt1 pt2 : Z) : result (list Edge) :=
  if bool_decide ((pt1, pt2) ∈ edges) then py_remove (pt1, pt2) edges
  else if bool_decide ((pt2, pt1) ∈ edges) then py_remove (pt2, pt1) edges
  else Ok (edges ++ [(pt1, pt2)]).

Definition find_local_boundary (tri : Delaunay) (triangles : list Z)
  : result (list Edge) :=
  let edges := [] in
  foldM (λ edges triangle,
           foldM (λ edges i,
                    row1 ← np_get (simplices tri) triangle;
                    let pt1 := row_nth row1 i in
                    row2 ← np_get (simplices tri) triangle;
                    let pt2 := row_nth row2 ((i + 1) mod 3) in
                    add_edge edges pt1 pt2)
                 edges (seq 0 3))
        edges triangles.

Definition area (poly : list point) : result R :=
  let a := 0%R in
  let n := length poly in
  a ← foldM (λ a i,
               p ← py_get poly i;
               q ← py_get poly ((i + 1) mod n);
               Ok (a + (p.1 * q.2 - q.1 * p.2))%R)
            a (seq 0 n);
  Ok (Rabs a / 2.0)%R.

(** The [while] loop of [order_edges]; [num_max] is the loop's own
    counter, so the recursion is structural. *)
Fixpoint order_loop (num_max : nat) (edge : Edge) (edges ordered_edges : list Edge)
  : result (list Edge) :=
  match num_max with
  | O => Ok ordered_edges
  | S num_max' =>
      if bool_decide (0 < length edges) then
        let match_ := edge.2 in
        match List.find (λ search_edge, bool_decide (match_ = search_edge.1)) edges with
        | Some search_edge =>
            edges' ← py_remove search_edge edges;
            order_loop num_max' search_edge edges' (ordered_edges ++ [search_edge])
        | None => order_loop num_max' edge edges ordered_edges
        end
      else Ok ordered_edges
  end.

Definition order_edges (edges : list Edge) : result (list Edge) :=
  edge ← py_get edges 0;
  let edges := drop 1 edges in
  let ordered_edges := [edge] in
  let num_max := length edges in
  order_loop num_max edge edges ordered_edges.

(** ** Vocabulary of the boundary properties *)

(** The three directed edges [(row[i], row[(i+1) % 3])] of a simplex row,
    in the order the loop of [find_local_boundary] meets them. *)
Definition directed_edges (row : Z * Z * Z) : list Edge :=
  [(row.1.1, row.1.2); (row.1.2, row.2); (row.2, row.1.1)].

(** The traversal [order_edges] is specified to perform.  From the
    current edge [cur] and the remaining [pool], [chain_steps cur pool out
    rest] holds when [out] is obtained by repeatedly taking the first edge
    of the pool that starts where the current edge ends, removing it from
    the pool, and stopping with the pool [rest] as soon as no edge of the
    pool starts there (in particular when the pool is empty). *)
Inductive chain_steps : Edge → list Edge → list Edge → list Edge → Prop :=
  | chain_stop (cur : Edge) (pool : list Edge) :
      (∀ e, e ∈ pool → e.1 ≠ cur.2) →
      chain_steps cur pool [] pool
  | chain_step (cur e : Edge) (l1 l2 out rest : list Edge) :
      e.1 = cur.2 →
      (∀ x, x ∈ l1 → x.1 ≠ cur.2) →
      chain_steps e (l1 ++ l2) out rest →
      chain_steps cur (l1 ++ e :: l2) (e :: out) rest.

(** Consecutive edges of a chain share a vertex: each edge starts where
    the one before it ends. *)
Definition linked (chain : list Edge) : Prop :=
  ∀ i x y, chain !! i = Some x → chain !! S i = Some y → x.2 = y.1.

(** A chain is closed when it comes back to the start of its first edge. *)
Definition closed_chain (chain : list Edge) : Prop :=
  ∃ x y, head chain = Some x ∧ last chain = Some y ∧ y.2 = x.1.

(** The polygon of an ordered boundary: the start vertex of every edge,
    looked up in [tri.points]. *)
Definition boundary_polygon (tri : Delaunay) (ordered_edges : list Edge)
  : result (list point) :=
  mapM (λ segment : Edge, np_get (points tri) segment.1) ordered_edges.

(** ** Example triangulations *)

(** The unit square with corners (0,0), (1,0), (1,1), (0,1), cut along the
    diagonal from corner 0 to corner 2. *)
Definition unit_square : Delaunay := {|
  points := [(0, 0); (1, 0); (1, 1); (0, 1)]%R;
  simplices := [(0, 1, 2); (0, 2, 3)]%Z;
  neighbors := [(-1, 1, -1); (-1, -1, 0)]%Z;
  find_simplex := λ p,
    if Rleb 0 p.1 && Rleb p.1 1 && Rleb 0 p.2 && Rleb p.2 1
    then (if Rleb p.2 p.1 then 0 else 1)%Z
    else (-1)%Z
|}.

(** The same square cut along the other diagonal, from corner 1 to
    corner 3. *)
Definition unit_square' : Delaunay := {|
  points := [(0, 0); (1, 0); (1, 1); (0, 1)]%R;
  simplices := [(0, 1, 3); (1, 2, 3)]%Z;
  neighbors := [(1, -1, -1); (-1, 0, -1)]%Z;
  find_simplex := λ p,
    if Rleb 0 p.1 && Rleb p.1 1 && Rleb 0 p.2 && Rleb p.2 1
    then (if Rleb (p.1 + p.2) 1 then 0 else 1)%Z
    else (-1)%Z
|}.


(** The round trip of the boundary functions: assemble the boundary of a
    set of triangles, order it, and measure the polygon it encloses. *)
Definition boundary_area (tri : Delaunay) (triangles : list Z) : result R :=
  edges ← find_local_boundary tri triangles;
  ordered_edges ← order_edges edges;
  poly ← boundary_polygon tri ordered_edges;
  area poly.


(** ** Vocabulary of the natural-neighbour properties *)

(** What the module relies on from [cKDTree.query_ball_point]: it returns
    positions of the indexed data, each at most once. *)
Definition kd_in_range (q : list point → point → fval → list nat) : Prop :=
  ∀ data x rad g, g ∈ q data x rad → g < length data.

Definition kd_nodup (q : list point → point → fval → list nat) : Prop :=
  ∀ data x rad, NoDup (q data x rad).

(** Every simplex row names three points of the triangulation. *)
Definition valid_simplices (tri : Delaunay) : Prop :=
  ∀ s, s ∈ simplices tri → ∃ ps, simplex_points tri s = Ok ps.

(** A degenerate simplex: its three vertices span no area. *)
Definition degenerate (ps : point * point * point) : Prop :=
  triangle_area ps.1.1 ps.1.2 ps.2 = 0%R.

Definition has_degenerate_simplex (tri : Delaunay) : Prop :=
  ∃ s ps, s ∈ simplices tri ∧ simplex_points tri s = Ok ps ∧ degenerate ps.

(** The real (non-sentinel) neighbors of simplex [i]. *)
Definition hop (tri : Delaunay) (i : Z) : gset Z :=
  if bool_decide (0 ≤ i)%Z then
    match neighbors tri !! Z.to_nat i with
    | Some row => list_to_set (row_list row) ∖ {[ (-1)%Z ]}
    | None => ∅
    end
  else ∅.

(** The candidate pool as the specification words it: the neighbors of
    the containing simplex together with the neighbors of those neighbors,
    the sentinel discarded. *)
Definition two_hop_pool (tri : Delaunay) (cur_tri : Z) : gset Z :=
  hop tri cur_tri ∪ ⋃ (map (hop tri) (elements (hop tri cur_tri))).




(** ** More example triangulations *)



(** Grid points for the unit square: one inside, one outside the square
    but inside the circumcircle of both triangles. *)
Definition unit_square_grid : list point := [(0.5, 0.25); (1.125, 0.5)]%R.

(** A strip of five triangles between the rows y = 0 and y = 8.  It is the
    Delaunay triangulation of its seven points; simplex 0 lies at the left
    end, simplex 4 (the last row) at the right end. *)
Definition strip : Delaunay := {|
  points := [(0, 0); (2, 0); (4, 0); (6, 0); (1, 8); (3, 8); (5, 8)]%R;
  simplices := [(0, 1, 4); (1, 5, 4); (1, 2, 5); (2, 6, 5); (2, 3, 6)]%Z;
  neighbors := [(1, -1, -1); (-1, 0, 2); (3, 1, -1); (-1, 2, 4); (-1, 3, -1)]%Z;
  find_simplex := λ p,
    let t := (p.2 / 8)%R in
    if Rleb 0 p.2 && Rleb p.2 8 && Rleb t p.1 && Rleb p.1 (6 - t)
    then (if Rleb p.1 (2 - t) then 0
          else if Rleb p.1 (2 + t) then 1
          else if Rleb p.1 (4 - t) then 2
          else if Rleb p.1 (4 + t) then 3
          else 4)%Z
    else (-1)%Z
|}.

(** A point of simplex 0 of the strip.  Its squared distance to every
    circumcentre involved is below 8, the squared radii are above 16. *)
Definition strip_point : point := (1.25, 4)%R.


(** How often the inner loop of [find_natural_neighbors] appends the
    current simplex to the entry of grid point [g]: once for every
    occurrence of [g] among the qualifiers, provided [g] is flagged as
    inside the triangulation. *)
Definition hits (in_tri : list bool) (qualifiers : list nat) (g : nat) : nat :=
  if bool_decide (in_tri !! g = Some true)
  then count_occ Nat.eq_dec qualifiers g
  else 0.


(** What holds of the two dictionaries of [find_natural_neighbors] when
    the simplices [0 .. k-1] have been visited: the membership map has one
    entry per grid point; the triangle info has one entry per visited
    simplex, holding its circumcentre and a defined radius; and simplex
    [i] stands in the entry of grid point [g] once for every time the
    radius query of simplex [i] returned a flagged [g]. *)
Record discovery_state (kd : list point → point → fval → list nat)
    (tri : Delaunay) (data : list point) (k : nat)
    (members : gmap nat (list nat)) (triangle_info : gmap nat TriangleInfo)
  : Prop := {
  ds_keys : ∀ g, is_Some (members !! g) ↔ g < length data;
  ds_visited : ∀ i, is_Some (triangle_info !! i) ↔ i < k;
  ds_bound : ∀ g l x, members !! g = Some l → x ∈ l → x < k;
  ds_members : ∀ g l i t,
    members !! g = Some l → triangle_info !! i = Some t →
    count_occ Nat.eq_dec l i
      = hits (in_triangulation tri data) (kd data (cc t) (r t)) g;
  ds_info : ∀ i t,
    triangle_info !! i = Some t →
    ∃ s ps rad,
      simplices tri !! i = Some s ∧ simplex_points tri s = Ok ps ∧
      d_div ps.1.1 ps.1.2 ps.2 ≠ 0%R ∧
      circumcenter ps.1.1 ps.1.2 ps.2 = Ok (cc t) ∧
      circumcircle_radius ps.1.1 ps.1.2 ps.2 = Ok (r t) ∧
      r t = Num rad
}.


(** The Delaunay condition: no sample point lies strictly inside the
    circumcircle of a simplex. *)
Definition empty_circumcircles (tri : Delaunay) : Prop :=
  ∀ (i : nat) (q : point),
    i < length (simplices tri) → q ∈ points tri →
    in_circumcircle tri q (Z.of_nat i) = Ok false.


(** ** Radius queries *)

Section RadiusQueries.

(** [cKDTree(target_points).query_ball_point(x, r)], as above. *)
Variable query_ball_point : list point → point → fval → list nat.



End RadiusQueries.

(** ** Vocabulary of the further properties *)



Definition Edge_eq_dec (x y : Edge) : {x = y} + {x ≠ y} := decide (x = y).

(** How often the undirected edge between [a] and [b] occurs in a list of
    directed edges, in either direction. *)
Definition undirected_count (edges : list Edge) (a b : Z) : nat :=
  count_occ Edge_eq_dec edges (a, b) + count_occ Edge_eq_dec edges (b, a).

(** A boundary collection is clean when it lists no directed edge twice
    and never holds an edge together with its reverse. *)
Definition clean_boundary (edges : list Edge) : Prop :=
  NoDup edges ∧ ∀ a b, a ≠ b → (a, b) ∈ edges → (b, a) ∉ edges.


(** The cross product [p.x * q.y - q.x * p.y] that the shoelace loop of
    [area] adds for a pair of consecutive vertices. *)
Definition cross (p q : point) : R := (p.1 * q.2 - q.1 * p.2)%R.

(** The sum of the cross products along the open path [p, l]. *)
Fixpoint path_sum (p : point) (l : list point) : R :=
  match l with
  | [] => 0%R
  | q :: l' => (cross p q + path_sum q l')%R
  end.

(** The shoelace sum of a polygon: the path sum around the closed
    vertex sequence. *)
Definition shoelace_sum (poly : list point) : R :=
  match poly with
  | [] => 0%R
  | p :: rest => path_sum p (rest ++ [p])
  end.


(** The directed edges that a list of triangle ids contributes, in the
    order [find_local_boundary] meets them. *)
Definition triangle_edges (tri : Delaunay) (triangles : list Z) : list Edge :=
  concat (map (λ triangle,
                 match np_get (simplices tri) triangle with
                 | Ok row => directed_edges row
                 | Raise _ => []
                 end) triangles).

(** An index numpy accepts for an array of [n] rows. *)
Definition np_valid (n : nat) (i : Z) : Prop :=
  (- Z.of_nat n ≤ i < Z.of_nat n)%Z.


(** A list of simplex indices in strictly ascending order. *)
Definition ascending (l : list nat) : Prop :=
  ∀ a b i j, l !! a = Some i → l !! b = Some j → a < b → i < j.

(* ================================================================== *)
(** * Part II: properties                                               *)
(* ================================================================== *)

(** ** The result monad *)

Lemma Ok_inj {A : Type} (a b : A) : Ok a = Ok b → a = b.
Proof. intros H. injection H as H. exact H. Qed.

Lemma bind_Ok {A B : Type} (m : result A) (f : A → result B) (b : B) :
  m ≫= f = Ok b ↔ ∃ a, m = Ok a ∧ f a = Ok b.
Proof.
  destruct m as [a|e]; simpl; split.
  - intros H. exists a. auto.
  - intros (a' & Ha & Hf). injection Ha as ->. exact Hf.
  - intros H. discriminate H.
  - intros (a' & Ha & _). discriminate Ha.
Qed.

Lemma foldM_app {A S : Type} (f : S → A → result S) (s : S) (l1 l2 : list A) :
  foldM f s (l1 ++ l2) = foldM f s l1 ≫= λ s', foldM f s' l2.
Proof.
  revert s. induction l1 as [|x l1 IH]; intros s; simpl; [reflexivity|].
  destruct (f s x) as [s'|e]; simpl; [apply IH | reflexivity].
Qed.

Lemma foldM_cons {A S : Type} (f : S → A → result S) (s : S) (x : A) (l : list A) :
  foldM f s (x :: l) = f s x ≫= λ s', foldM f s' l.
Proof. reflexivity. Qed.

(** A loop whose body never raises on the elements it meets runs to its
    end, and an invariant of the body is an invariant of the loop. *)
Lemma foldM_invariant {A S : Type} (f : S → A → result S) (I : S → Prop)
    (P : A → Prop) (l : list A) (s : S) :
  (∀ s x, I s → P x → ∃ s', f s x = Ok s' ∧ I s') →
  I s → Forall P l → ∃ s', foldM f s l = Ok s' ∧ I s'.
Proof.
  intros Hstep. revert s. induction l as [|x l IH]; intros s Hs Hl; simpl.
  - exists s. auto.
  - inversion Hl as [|? ? Hx Hl']; subst.
    destruct (Hstep s x Hs Hx) as (s1 & -> & Hs1). simpl. apply IH; assumption.
Qed.

(** ** Indexing *)

Lemma py_get_Ok {A : Type} (l : list A) (i : nat) (x : A) :
  py_get l i = Ok x ↔ l !! i = Some x.
Proof.
  unfold py_get. destruct (l !! i); split; intros H; try discriminate H;
    injection H as ->; reflexivity.
Qed.

Lemma py_get_lt {A : Type} (l : list A) (i : nat) :
  i < length l → ∃ x, py_get l i = Ok x.
Proof.
  intros H. destruct (lookup_lt_is_Some_2 l i H) as [x Hx].
  exists x. apply py_get_Ok. exact Hx.
Qed.


(** The sentinel [-1], used as an index, selects the last row. *)
Lemma np_get_minus_one {A : Type} (a : list A) :
  np_get a (-1) = match last a with Some x => Ok x | None => Raise IndexError end.
Proof.
  unfold np_get, np_index. case_bool_decide as H1; [lia|].
  case_bool_decide as H2.
  - simpl. unfold py_get. rewrite last_lookup.
    replace (Z.to_nat (Z.of_nat (length a) + -1)) with (Nat.pred (length a)) by lia.
    reflexivity.
  - assert (length a = 0) as Hlen by lia.
    destruct a; [reflexivity | discriminate Hlen].
Qed.

(** ** Real comparisons *)

Lemma Rltb_true (x y : R) : Rltb x y = true ↔ (x < y)%R.
Proof. unfold Rltb. destruct (Rlt_dec x y); split; auto; discriminate. Qed.

Lemma Rltb_false (x y : R) : Rltb x y = false ↔ (y <= x)%R.
Proof.
  unfold Rltb. destruct (Rlt_dec x y); split; auto; try discriminate; lra.
Qed.

Lemma Rleb_true (x y : R) : Rleb x y = true ↔ (x <= y)%R.
Proof. unfold Rleb. destruct (Rle_dec x y); split; auto; discriminate. Qed.

Lemma Rleb_false (x y : R) : Rleb x y = false ↔ (y < x)%R.
Proof.
  unfold Rleb. destruct (Rle_dec x y); split; auto; try discriminate; lra.
Qed.

Lemma Reqb_true (x y : R) : Reqb x y = true ↔ x = y.
Proof. unfold Reqb. destruct (Req_dec_T x y); split; auto; discriminate. Qed.

Lemma Reqb_false (x y : R) : Reqb x y = false ↔ x ≠ y.
Proof.
  unfold Reqb. destruct (Req_dec_T x y); split; auto; try discriminate.
  intros H. contradiction.
Qed.

(** Settles the comparisons of concrete reals that stand in the goal. *)
Ltac decide_reals :=
  repeat match goal with
    | |- context [Rleb ?a ?b] =>
        first [ rewrite (proj2 (Rleb_true a b)) by lra
              | rewrite (proj2 (Rleb_false a b)) by lra ]
    | |- context [Rltb ?a ?b] =>
        first [ rewrite (proj2 (Rltb_true a b)) by lra
              | rewrite (proj2 (Rltb_false a b)) by lra ]
    | |- context [Reqb ?a ?b] =>
        first [ rewrite (proj2 (Reqb_true a b)) by lra
              | rewrite (proj2 (Reqb_false a b)) by lra ]
    end.

(** ** Triangle geometry *)

Section TriangleGeometryFacts.
Local Open Scope R_scope.

Lemma dist_2_nonneg (x0 y0 x1 y1 : R) : 0 <= dist_2 x0 y0 x1 y1.
Proof.
  unfold dist_2. cbv zeta.
  pose proof (Rle_0_sqr (x1 - x0)) as H0. pose proof (Rle_0_sqr (y1 - y0)) as H1.
  unfold Rsqr in H0, H1. lra.
Qed.

(** [math.sqrt] is only ever applied to a sum of two squares, so
    [distance] never raises. *)
Lemma distance_Ok (p q : point) : distance p q = Ok (seg_len p q).
Proof.
  unfold distance, math_sqrt.
  pose proof (dist_2_nonneg p.1 p.2 q.1 q.2) as Hd.
  destruct (Rltb _ 0) eqn:E.
  - apply Rltb_true in E. lra.
  - reflexivity.
Qed.

Lemma triangle_area_nonneg (a b c : point) : 0 <= triangle_area a b c.
Proof.
  unfold triangle_area. cbv zeta.
  match goal with |- 0 <= Rabs ?t / 2 => pose proof (Rabs_pos t) end. lra.
Qed.

(** The shoelace sum of [triangle_area] and the denominator of
    [circumcenter] are the same determinant. *)
Lemma triangle_area_d_div (a b c : point) :
  triangle_area a b c = Rabs (d_div a b c) / 2.
Proof.
  unfold triangle_area, d_div. cbv zeta. do 2 f_equal. ring.
Qed.

Lemma triangle_area_zero_iff (a b c : point) :
  triangle_area a b c = 0 ↔ d_div a b c = 0.
Proof.
  rewrite triangle_area_d_div. split; intros H.
  - destruct (Req_dec_T (d_div a b c) 0) as [|Hne]; [assumption|].
    apply Rabs_pos_lt in Hne. lra.
  - rewrite H, Rabs_R0. lra.
Qed.

Lemma triangle_area_pos_iff (a b c : point) :
  0 < triangle_area a b c ↔ d_div a b c ≠ 0.
Proof.
  pose proof (triangle_area_nonneg a b c) as Hn.
  pose proof (triangle_area_zero_iff a b c) as Hz.
  split.
  - intros Hpos Hd. apply Hz in Hd. lra.
  - intros Hd. destruct (Req_dec_T (triangle_area a b c) 0) as [E|E].
    + apply Hz in E. contradiction.
    + lra.
Qed.



Lemma circumcenter_Raise (a b c : point) (e : exn) :
  circumcenter a b c = Raise e ↔ d_div a b c = 0 ∧ e = ZeroDivisionError.
Proof.
  unfold circumcenter. cbv zeta. destruct (Reqb (d_div a b c) 0) eqn:E.
  - apply Reqb_true in E. split.
    + intros H. injection H as <-. auto.
    + intros [_ ->]. reflexivity.
  - apply Reqb_false in E. split.
    + intros H. discriminate H.
    + intros [H _]. contradiction.
Qed.

Lemma circumcenter_Ok (a b c : point) :
  d_div a b c ≠ 0 → circumcenter a b c = Ok (circumcenter_formula a b c).
Proof.
  intros Hd. unfold circumcenter. cbv zeta.
  apply Reqb_false in Hd. rewrite Hd. reflexivity.
Qed.

Lemma circumcenter_Ok_inv (a b c p : point) :
  circumcenter a b c = Ok p → d_div a b c ≠ 0 ∧ p = circumcenter_formula a b c.
Proof.
  intros H. destruct (Req_dec_T (d_div a b c) 0) as [E|E].
  - assert (circumcenter a b c = Raise ZeroDivisionError) as Hr
      by (apply circumcenter_Raise; auto).
    rewrite Hr in H. discriminate H.
  - rewrite (circumcenter_Ok a b c E) in H. injection H as <-. auto.
Qed.

(** The squared radius is the square of the radius, and is free of square
    roots: it is the product of the three squared side lengths over
    [16 * area^2]. *)
Lemma circumcircle_radius_2_Ok (a b c : point) :
  0 < triangle_area a b c →
  circumcircle_radius_2 a b c =
    Ok (Num (dist_2 a.1 a.2 b.1 b.2 * dist_2 b.1 b.2 c.1 c.2 * dist_2 c.1 c.2 a.1 a.2
             / (16 * triangle_area a b c * triangle_area a b c))).
Proof.
  intros Hpos. unfold circumcircle_radius_2. rewrite !distance_Ok. simpl.
  apply Rltb_true in Hpos. rewrite Hpos. do 2 f_equal.
  unfold seg_len. fold (dist_2 a.1 a.2 b.1 b.2).
  fold (dist_2 b.1 b.2 c.1 c.2). fold (dist_2 c.1 c.2 a.1 a.2).
  pose proof (dist_2_nonneg a.1 a.2 b.1 b.2) as H1.
  pose proof (dist_2_nonneg b.1 b.2 c.1 c.2) as H2.
  pose proof (dist_2_nonneg c.1 c.2 a.1 a.2) as H3.
  f_equal.
  set (sa := sqrt (dist_2 a.1 a.2 b.1 b.2)).
  set (sb := sqrt (dist_2 b.1 b.2 c.1 c.2)).
  set (sc := sqrt (dist_2 c.1 c.2 a.1 a.2)).
  replace (sa * sb * sc * (sa * sb * sc)) with
    ((sa * sa) * (sb * sb) * (sc * sc)) by ring.
  unfold sa, sb, sc. rewrite !sqrt_sqrt by assumption. reflexivity.
Qed.

Lemma circumcircle_radius_Ok (a b c : point) :
  0 < triangle_area a b c →
  circumcircle_radius a b c =
    Ok (Num (seg_len a b * seg_len b c * seg_len c a / (4 * triangle_area a b c))).
Proof.
  intros Hpos. unfold circumcircle_radius. rewrite !distance_Ok. simpl.
  apply Rltb_true in Hpos. rewrite Hpos. reflexivity.
Qed.










End TriangleGeometryFacts.

(** ** Shoelace area *)

Section ShoelaceArea.
Local Open Scope R_scope.




End ShoelaceArea.

(** ** Boundary assembly *)

Lemma py_remove_first {A : Type} `{EqDecision A} (x : A) (l1 l2 : list A) :
  x ∉ l1 → py_remove x (l1 ++ x :: l2) = Ok (l1 ++ l2).
Proof.
  induction l1 as [|y l1 IH]; intros Hx; simpl.
  - rewrite bool_decide_eq_true_2; reflexivity.
  - rewrite bool_decide_eq_false_2.
    + rewrite IH; [reflexivity|]. intros Hin. apply Hx. right. exact Hin.
    + intros ->. apply Hx. left.
Qed.

Lemma py_remove_absent {A : Type} `{EqDecision A} (x : A) (l : list A) :
  x ∉ l → py_remove x l = Raise ValueError.
Proof.
  induction l as [|y l IH]; intros Hx; simpl; [reflexivity|].
  rewrite bool_decide_eq_false_2.
  - rewrite IH; [reflexivity|]. intros Hin. apply Hx. right. exact Hin.
  - intros ->. apply Hx. left.
Qed.

(** The first occurrence of a member splits the list. *)
Lemma first_occurrence {A : Type} `{EqDecision A} (x : A) (l : list A) :
  x ∈ l → ∃ l1 l2, l = l1 ++ x :: l2 ∧ x ∉ l1.
Proof.
  induction l as [|y l IH]; intros Hx.
  - inversion Hx.
  - destruct (decide (y = x)) as [->|Hne].
    + exists [], l. split; [reflexivity|]. intros H'. inversion H'.
    + apply elem_of_cons in Hx as [->|Hx]; [contradiction|].
      destruct (IH Hx) as (l1 & l2 & -> & Hl1).
      exists (y :: l1), l2. split; [reflexivity|].
      intros H'. apply elem_of_cons in H' as [->|H']; [contradiction|].
      exact (Hl1 H').
Qed.

(** The three branches of the edge update, as the code takes them: an
    edge already present in the same direction is removed (first branch);
    failing that its reverse is removed (second branch); failing both the
    edge is appended.  The update never raises. *)
Lemma add_edge_same_direction (edges : list Edge) (a b : Z) :
  (a, b) ∈ edges →
  ∃ l1 l2, edges = l1 ++ (a, b) :: l2 ∧ ((a, b) ∉ l1) ∧
           add_edge edges a b = Ok (l1 ++ l2).
Proof.
  intros Hin. destruct (first_occurrence _ _ Hin) as (l1 & l2 & -> & Hl1).
  exists l1, l2. split; [reflexivity|]. split; [exact Hl1|].
  unfold add_edge. rewrite bool_decide_eq_true_2 by exact Hin.
  apply py_remove_first. exact Hl1.
Qed.

Lemma add_edge_reverse (edges : list Edge) (a b : Z) :
  (a, b) ∉ edges → (b, a) ∈ edges →
  ∃ l1 l2, edges = l1 ++ (b, a) :: l2 ∧ ((b, a) ∉ l1) ∧
           add_edge edges a b = Ok (l1 ++ l2).
Proof.
  intros Hout Hin. destruct (first_occurrence _ _ Hin) as (l1 & l2 & -> & Hl1).
  exists l1, l2. split; [reflexivity|]. split; [exact Hl1|].
  unfold add_edge. rewrite bool_decide_eq_false_2 by exact Hout.
  rewrite bool_decide_eq_true_2 by exact Hin.
  apply py_remove_first. exact Hl1.
Qed.

Lemma add_edge_fresh (edges : list Edge) (a b : Z) :
  (a, b) ∉ edges → (b, a) ∉ edges → add_edge edges a b = Ok (edges ++ [(a, b)]).
Proof.
  intros H1 H2. unfold add_edge.
  rewrite bool_decide_eq_false_2 by exact H1.
  rewrite bool_decide_eq_false_2 by exact H2. reflexivity.
Qed.

(** [find_local_boundary] feeds the directed edges of its triangles, in
    order, to [add_edge]. *)
Lemma find_local_boundary_step (tri : Delaunay) (edges : list Edge)
    (triangle : Z) (row : Z * Z * Z) :
  np_get (simplices tri) triangle = Ok row →
  foldM (λ edges i,
           row1 ← np_get (simplices tri) triangle;
           let pt1 := row_nth row1 i in
           row2 ← np_get (simplices tri) triangle;
           let pt2 := row_nth row2 ((i + 1) mod 3) in
           add_edge edges pt1 pt2) edges (seq 0 3)
  = foldM (λ edges e, add_edge edges e.1 e.2) edges (directed_edges row).
Proof.
  intros Hrow. simpl. rewrite !Hrow. simpl. reflexivity.
Qed.

Lemma find_local_boundary_fold (tri : Delaunay) (triangles : list Z)
    (rows : list (Z * Z * Z)) :
  Forall2 (λ triangle row, np_get (simplices tri) triangle = Ok row) triangles rows →
  find_local_boundary tri triangles =
    foldM (λ edges e, add_edge edges e.1 e.2) [] (concat (map directed_edges rows)).
Proof.
  unfold find_local_boundary. cbv zeta. generalize (@nil Edge) as edges.
  intros edges Hrows. revert edges.
  induction Hrows as [|triangle row triangles rows Hrow _ IH]; intros edges.
  - reflexivity.
  - cbn [foldM map concat]. rewrite foldM_app.
    pose proof (find_local_boundary_step tri edges triangle row Hrow) as Hstep.
    cbv zeta in Hstep. rewrite Hstep. clear Hstep.
    destruct (foldM (λ edges e, add_edge edges e.1 e.2) edges (directed_edges row))
      as [edges'|e]; simpl.
    + apply IH.
    + reflexivity.
Qed.

(** C2 (as the code has it): an incoming directed edge [(a, b)] cancels
    the first stored [(a, b)] when the collection already holds that edge
    in the same direction; otherwise it cancels the first stored reverse
    [(b, a)]; only when neither is stored is it appended.  Nothing but the
    one cancelled edge leaves the collection, the update never raises, and
    [find_local_boundary] is this update run over the directed edges of
    its triangles in order. *)
Theorem add_edge_cancels_same_or_reverse :
  ∀ (edges : list Edge) (a b : Z),
    ((a, b) ∈ edges →
       ∃ l1 l2, edges = l1 ++ (a, b) :: l2 ∧ ((a, b) ∉ l1) ∧
                add_edge edges a b = Ok (l1 ++ l2)) ∧
    ((a, b) ∉ edges → (b, a) ∈ edges →
       ∃ l1 l2, edges = l1 ++ (b, a) :: l2 ∧ ((b, a) ∉ l1) ∧
                add_edge edges a b = Ok (l1 ++ l2)) ∧
    ((a, b) ∉ edges → (b, a) ∉ edges →
       add_edge edges a b = Ok (edges ++ [(a, b)])) ∧
    (∀ (tri : Delaunay) (triangles : list Z) (rows : list (Z * Z * Z)),
       Forall2 (λ triangle row, np_get (simplices tri) triangle = Ok row)
               triangles rows →
       find_local_boundary tri triangles =
         foldM (λ edges e, add_edge edges e.1 e.2) []
               (concat (map directed_edges rows))).
Proof.
  intros edges a b. split; [|split; [|split]].
  - apply add_edge_same_direction.
  - apply add_edge_reverse.
  - apply add_edge_fresh.
  - apply find_local_boundary_fold.
Qed.

(** The theorem above on the collection (0,1), (1,2): the incoming edge
    (2,1) cancels its reverse, the incoming edge (0,1) cancels itself. *)
Lemma add_edge_cancels_same_or_reverse_witness :
  (∃ l1 l2, [(0, 1); (1, 2)]%Z = l1 ++ (1, 2)%Z :: l2 ∧
            add_edge [(0, 1); (1, 2)]%Z 2 1 = Ok (l1 ++ l2)) ∧
  (∃ l1 l2, [(0, 1); (1, 2)]%Z = l1 ++ (0, 1)%Z :: l2 ∧
            add_edge [(0, 1); (1, 2)]%Z 0 1 = Ok (l1 ++ l2)).
Proof.
  split.
  - destruct (add_edge_cancels_same_or_reverse [(0, 1); (1, 2)]%Z 2 1)
      as (_ & Hrev & _).
    destruct Hrev as (l1 & l2 & Heq & _ & Hrun).
    + rewrite !elem_of_cons. intros [H | [H | H]];
        [discriminate H | discriminate H | inversion H].
    + rewrite !elem_of_cons. auto.
    + exists l1, l2. auto.
  - destruct (add_edge_cancels_same_or_reverse [(0, 1); (1, 2)]%Z 0 1)
      as (Hsame & _).
    destruct Hsame as (l1 & l2 & Heq & _ & Hrun).
    + rewrite !elem_of_cons. auto.
    + exists l1, l2. auto.
Defined.

(** C2 does not hold as stated: an edge that arrives a second time in
    the same direction is cancelled, not appended.  Listing the triangle
    (0, 1, 2) twice leaves no edge at all. *)
Lemma same_direction_duplicate_is_cancelled :
  add_edge [(0, 1)%Z] 0 1 = Ok [] ∧
  find_local_boundary unit_square [0; 0]%Z = Ok [].
Proof. split; reflexivity. Qed.

(** ** Ordering the boundary *)

Lemma find_first_match {A : Type} (f : A → bool) (l : list A) (x : A) :
  List.find f l = Some x →
  ∃ l1 l2, l = l1 ++ x :: l2 ∧ f x = true ∧ ∀ y, y ∈ l1 → f y = false.
Proof.
  induction l as [|y l IH]; simpl; intros H; [discriminate H|].
  destruct (f y) eqn:E.
  - injection H as ->. exists [], l. split; [reflexivity|]. split; [exact E|].
    intros z Hz. inversion Hz.
  - destruct (IH H) as (l1 & l2 & -> & Hx & Hl1).
    exists (y :: l1), l2. split; [reflexivity|]. split; [exact Hx|].
    intros z Hz. apply elem_of_cons in Hz as [->|Hz]; [exact E | exact (Hl1 z Hz)].
Qed.

Lemma find_no_match {A : Type} (f : A → bool) (l : list A) :
  List.find f l = None ↔ ∀ y, y ∈ l → f y = false.
Proof.
  induction l as [|y l IH]; simpl.
  - split; [|reflexivity]. intros _ z Hz. inversion Hz.
  - destruct (f y) eqn:E.
    + split; [intros H; discriminate H|]. intros H.
      rewrite (H y) in E by left. discriminate E.
    + rewrite IH. split.
      * intros H z Hz. apply elem_of_cons in Hz as [->|Hz]; [exact E | exact (H z Hz)].
      * intros H z Hz. apply H. right. exact Hz.
Qed.

(** One iteration of the [while] loop. *)
Lemma order_loop_S (n : nat) (cur : Edge) (pool acc : list Edge) :
  order_loop (S n) cur pool acc =
    if bool_decide (0 < length pool) then
      match List.find (λ search_edge : Edge, bool_decide (cur.2 = search_edge.1)) pool with
      | Some search_edge =>
          py_remove search_edge pool ≫= λ pool',
            order_loop n search_edge pool' (acc ++ [search_edge])
      | None => order_loop n cur pool acc
      end
    else Ok acc.
Proof. reflexivity. Qed.

(** Once no edge of the pool continues the chain, the remaining
    iterations of the loop change nothing. *)
Lemma order_loop_no_match (num_max : nat) (cur : Edge) (pool acc : list Edge) :
  (∀ e, e ∈ pool → e.1 ≠ cur.2) → order_loop num_max cur pool acc = Ok acc.
Proof.
  intros Hno. induction num_max as [|n IH]; [reflexivity|].
  rewrite order_loop_S. case_bool_decide; [|reflexivity].
  assert (List.find (λ search_edge : Edge, bool_decide (cur.2 = search_edge.1)) pool
          = None) as ->; [|exact IH].
  apply find_no_match. intros y Hy. apply bool_decide_eq_false_2.
  intros Heq. apply (Hno y Hy). symmetry. exact Heq.
Qed.

Lemma order_loop_chain (num_max : nat) :
  ∀ (cur : Edge) (pool acc : list Edge),
    length pool ≤ num_max →
    ∃ out rest, order_loop num_max cur pool acc = Ok (acc ++ out) ∧
                chain_steps cur pool out rest.
Proof.
  induction num_max as [|n IH]; intros cur pool acc Hlen.
  - destruct pool; [|simpl in Hlen; lia].
    exists [], []. simpl. rewrite app_nil_r. split; [reflexivity|].
    constructor. intros e He. inversion He.
  - destruct (List.find (λ search_edge : Edge, bool_decide (cur.2 = search_edge.1)) pool)
      as [e|] eqn:Hfind.
    + destruct (find_first_match _ _ _ Hfind) as (l1 & l2 & -> & He & Hl1).
      apply bool_decide_eq_true_1 in He.
      assert (∀ x, x ∈ l1 → x.1 ≠ cur.2) as Hl1'.
      { intros x Hx Heq. specialize (Hl1 x Hx).
        apply bool_decide_eq_false_1 in Hl1. apply Hl1. symmetry. exact Heq. }
      assert (e ∉ l1) as Hnot.
      { intros Hin. apply (Hl1' e Hin). symmetry. exact He. }
      destruct (IH e (l1 ++ l2) (acc ++ [e])) as (out & rest & Hrun & Hchain).
      { rewrite length_app in *. simpl in Hlen. lia. }
      exists (e :: out), rest. split.
      * rewrite order_loop_S. rewrite bool_decide_eq_true_2
          by (rewrite length_app; simpl; lia).
        rewrite Hfind. rewrite (py_remove_first e l1 l2 Hnot). simpl.
        rewrite Hrun. rewrite <- app_assoc. reflexivity.
      * apply chain_step; [symmetry; exact He | exact Hl1' | exact Hchain].
    + assert (∀ e, e ∈ pool → e.1 ≠ cur.2) as Hno.
      { intros e He Heq. apply find_no_match with (y := e) in Hfind; [|exact He].
        apply bool_decide_eq_false_1 in Hfind. apply Hfind. symmetry. exact Heq. }
      exists [], pool. rewrite app_nil_r. split.
      * apply order_loop_no_match. exact Hno.
      * constructor. exact Hno.
Qed.

Lemma chain_steps_linked (cur : Edge) (pool out rest : list Edge) :
  chain_steps cur pool out rest → linked (cur :: out).
Proof.
  induction 1 as [cur pool _ | cur e l1 l2 out rest He _ _ IH].
  - intros i x y Hx Hy. destruct i; discriminate Hy.
  - intros i x y Hx Hy. destruct i as [|i].
    + simpl in Hx, Hy. injection Hx as <-. injection Hy as <-. symmetry. exact He.
    + apply (IH i); assumption.
Qed.

Lemma chain_steps_perm (cur : Edge) (pool out rest : list Edge) :
  chain_steps cur pool out rest → Permutation (out ++ rest) pool.
Proof.
  induction 1 as [cur pool _ | cur e l1 l2 out rest _ _ _ IH].
  - reflexivity.
  - simpl. rewrite IH. apply Permutation_middle.
Qed.

Lemma chain_steps_stops (cur : Edge) (pool out rest : list Edge) :
  chain_steps cur pool out rest →
  ∀ z e, last (cur :: out) = Some z → e ∈ rest → e.1 ≠ z.2.
Proof.
  induction 1 as [cur pool Hno | cur e l1 l2 out rest _ _ _ IH]; intros z x Hz Hx.
  - simpl in Hz. injection Hz as <-. exact (Hno x Hx).
  - apply (IH z x); [exact Hz | exact Hx].
Qed.

(** C7: on a non-empty edge list [order_edges] returns a chain that
    begins with the first input edge; every edge of the chain starts where
    the one before it ends; every appended edge is the first edge of the
    remaining pool that starts at the current end vertex, and is removed
    from the pool; the traversal stops exactly when no edge of the pool
    starts at the current end vertex (in particular when the pool is
    exhausted).  Whether the chain is closed is not checked: an open chain
    such as (0,1), (1,2) is returned as it is. *)
Theorem order_edges_chain :
  ∀ (first : Edge) (others : list Edge),
    (∃ out rest,
       order_edges (first :: others) = Ok (first :: out) ∧
       chain_steps first others out rest ∧
       linked (first :: out) ∧
       Permutation (out ++ rest) others ∧
       (∀ z e, last (first :: out) = Some z → e ∈ rest → e.1 ≠ z.2)) ∧
    order_edges [(0, 1); (1, 2)]%Z = Ok [(0, 1); (1, 2)]%Z ∧
    ¬ closed_chain [(0, 1); (1, 2)]%Z.
Proof.
  intros first others. split; [|split].
  - destruct (order_loop_chain (length others) first others [first])
      as (out & rest & Hrun & Hchain); [lia|].
    exists out, rest. split; [|split; [|split; [|split]]].
    + unfold order_edges. simpl. rewrite drop_0. exact Hrun.
    + exact Hchain.
    + eapply chain_steps_linked. exact Hchain.
    + eapply chain_steps_perm. exact Hchain.
    + eapply chain_steps_stops. exact Hchain.
  - reflexivity.
  - intros (x & y & Hx & Hy & Hxy). simpl in Hx, Hy.
    injection Hx as <-. injection Hy as <-. simpl in Hxy. discriminate Hxy.
Qed.

(** ** The unit square *)

Lemma area_unit_square :
  area [(0, 0); (1, 0); (1, 1); (0, 1)]%R = Ok 1%R.
Proof.
  unfold area. simpl. f_equal.
  match goal with |- (Rabs ?t / _)%R = _ => replace t with 2%R by ring end.
  rewrite Rabs_right; lra.
Qed.

(** C5: for the unit square cut into two triangles along a diagonal,
    [find_local_boundary] cancels the shared diagonal and leaves exactly
    the four outer edges; ordered by [order_edges] they enclose a polygon
    of shoelace area 1.  Both ways of cutting the square are covered. *)
Theorem unit_square_round_trip :
  find_local_boundary unit_square [0; 1]%Z
    = Ok [(0, 1); (1, 2); (2, 3); (3, 0)]%Z ∧
  order_edges [(0, 1); (1, 2); (2, 3); (3, 0)]%Z
    = Ok [(0, 1); (1, 2); (2, 3); (3, 0)]%Z ∧
  boundary_polygon unit_square [(0, 1); (1, 2); (2, 3); (3, 0)]%Z
    = Ok [(0, 0); (1, 0); (1, 1); (0, 1)]%R ∧
  boundary_area unit_square [0; 1]%Z = Ok 1%R ∧
  find_local_boundary unit_square' [0; 1]%Z
    = Ok [(0, 1); (3, 0); (1, 2); (2, 3)]%Z ∧
  order_edges [(0, 1); (3, 0); (1, 2); (2, 3)]%Z
    = Ok [(0, 1); (1, 2); (2, 3); (3, 0)]%Z ∧
  boundary_area unit_square' [0; 1]%Z = Ok 1%R.
Proof.
  assert (boundary_polygon unit_square [(0, 1); (1, 2); (2, 3); (3, 0)]%Z
          = Ok [(0, 0); (1, 0); (1, 1); (0, 1)]%R) as Hpoly by reflexivity.
  assert (boundary_polygon unit_square' [(0, 1); (1, 2); (2, 3); (3, 0)]%Z
          = Ok [(0, 0); (1, 0); (1, 1); (0, 1)]%R) as Hpoly' by reflexivity.
  repeat split; try reflexivity.
  - unfold boundary_area.
    change (find_local_boundary unit_square [0; 1]%Z)
      with (Ok [(0, 1); (1, 2); (2, 3); (3, 0)]%Z : result (list Edge)).
    cbn [mbind result_bind].
    change (order_edges [(0, 1); (1, 2); (2, 3); (3, 0)]%Z)
      with (Ok [(0, 1); (1, 2); (2, 3); (3, 0)]%Z : result (list Edge)).
    cbn [mbind result_bind]. rewrite Hpoly. cbn [mbind result_bind].
    apply area_unit_square.
  - unfold boundary_area.
    change (find_local_boundary unit_square' [0; 1]%Z)
      with (Ok [(0, 1); (3, 0); (1, 2); (2, 3)]%Z : result (list Edge)).
    cbn [mbind result_bind].
    change (order_edges [(0, 1); (3, 0); (1, 2); (2, 3)]%Z)
      with (Ok [(0, 1); (1, 2); (2, 3); (3, 0)]%Z : result (list Edge)).
    cbn [mbind result_bind]. rewrite Hpoly'. cbn [mbind result_bind].
    apply area_unit_square.
Qed.

(** ** Natural neighbours of one point *)

Section LocalNeighbours.
Local Open Scope R_scope.

(** The loop of [find_nn_triangles_point] keeps exactly the candidates
    that pass the test, and it returns only when the test raised on no
    candidate. *)
Lemma keep_loop_spec (tri : Delaunay) (pt : point) (l : list Z) :
  ∀ acc nn,
    foldM (λ nn neighbor,
             inside ← in_circumcircle tri pt neighbor;
             Ok (if inside : bool then nn ++ [neighbor] else nn)) acc l = Ok nn →
    (∀ x, x ∈ l → ∃ b, in_circumcircle tri pt x = Ok b) ∧
    (∀ x, x ∈ nn ↔ x ∈ acc ∨ (x ∈ l ∧ in_circumcircle tri pt x = Ok true)).
Proof.
  induction l as [|y l IH]; intros acc nn Hrun; simpl in Hrun.
  - injection Hrun as <-. split.
    + intros x Hx. inversion Hx.
    + intros x. split; [auto|]. intros [H|[H _]]; [exact H | inversion H].
  - apply bind_Ok in Hrun as (acc' & Hy & Hrun).
    apply bind_Ok in Hy as (b & Hb & Hacc). injection Hacc as <-.
    destruct (IH _ _ Hrun) as [Hall Hmem]. split.
    + intros x Hx. apply elem_of_cons in Hx as [->|Hx]; [eauto | auto].
    + intros x. rewrite Hmem. destruct b.
      * rewrite elem_of_app, list_elem_of_singleton, elem_of_cons. split.
        -- intros [[H| ->]|[H1 H2]]; auto.
        -- intros [H|[[->|H1] H2]]; auto.
      * rewrite elem_of_cons. split.
        -- intros [H|[H1 H2]]; auto.
        -- intros [H|[[->|H1] H2]]; auto. rewrite Hb in H2. discriminate H2.
Qed.

Lemma keep_loop_total (tri : Delaunay) (pt : point) (l : list Z) :
  (∀ x, x ∈ l → ∃ b, in_circumcircle tri pt x = Ok b) →
  ∀ acc, ∃ nn,
    foldM (λ nn neighbor,
             inside ← in_circumcircle tri pt neighbor;
             Ok (if inside : bool then nn ++ [neighbor] else nn)) acc l = Ok nn.
Proof.
  induction l as [|y l IH]; intros Hall acc; simpl.
  - eauto.
  - destruct (Hall y) as [b ->]; [left|]. simpl. apply IH.
    intros x Hx. apply Hall. right. exact Hx.
Qed.

(** The members of the result: the candidates on which the test
    succeeds. *)
Lemma find_nn_triangles_point_members (tri : Delaunay) (cur_tri : Z)
    (pt : point) (nn : list Z) :
  find_nn_triangles_point tri cur_tri pt = Ok nn →
  ∃ C, candidate_pool tri cur_tri = Ok C ∧
       (∀ x, x ∈ C → ∃ b, in_circumcircle tri pt x = Ok b) ∧
       (∀ x, x ∈ nn ↔ x ∈ C ∧ in_circumcircle tri pt x = Ok true).
Proof.
  unfold find_nn_triangles_point. cbv zeta. intros Hrun.
  apply bind_Ok in Hrun as (C & HC & Hrun). exists C. split; [exact HC|].
  destruct (keep_loop_spec _ _ _ _ _ Hrun) as [Hall Hmem]. split.
  - intros x Hx. apply Hall. apply elem_of_elements. exact Hx.
  - intros x. rewrite Hmem, elem_of_elements. split.
    + intros [H|H]; [inversion H | exact H].
    + auto.
Qed.

Lemma find_nn_triangles_point_total (tri : Delaunay) (cur_tri : Z)
    (pt : point) (C : gset Z) :
  candidate_pool tri cur_tri = Ok C →
  (∀ x, x ∈ C → ∃ b, in_circumcircle tri pt x = Ok b) →
  ∃ nn, find_nn_triangles_point tri cur_tri pt = Ok nn.
Proof.
  intros HC Hall. unfold find_nn_triangles_point. cbv zeta. rewrite HC. simpl.
  apply keep_loop_total. intros x Hx. apply Hall. apply elem_of_elements. exact Hx.
Qed.


(** The test on a simplex with nonzero determinant, free of square roots
    and absolute values. *)
Lemma in_circumcircle_Ok (tri : Delaunay) (pt : point) (x : Z)
    (s : Z * Z * Z) (ps : point * point * point) :
  np_get (simplices tri) x = Ok s →
  simplex_points tri s = Ok ps →
  d_div ps.1.1 ps.1.2 ps.2 ≠ 0 →
  let c := circumcenter_formula ps.1.1 ps.1.2 ps.2 in
  let d := d_div ps.1.1 ps.1.2 ps.2 in
  let rad2 :=
    dist_2 ps.1.1.1 ps.1.1.2 ps.1.2.1 ps.1.2.2 *
    dist_2 ps.1.2.1 ps.1.2.2 ps.2.1 ps.2.2 *
    dist_2 ps.2.1 ps.2.2 ps.1.1.1 ps.1.1.2 / (4 * (d * d)) in
  circumcircle_radius_2 ps.1.1 ps.1.2 ps.2 = Ok (Num rad2) ∧
  in_circumcircle tri pt x = Ok (Rltb (dist_2 pt.1 pt.2 c.1 c.2) rad2).
Proof.
  intros Hs Hps Hd c d rad2.
  assert (circumcircle_radius_2 ps.1.1 ps.1.2 ps.2 = Ok (Num rad2)) as Hrad.
  { rewrite circumcircle_radius_2_Ok by (apply triangle_area_pos_iff; exact Hd).
    do 2 f_equal. unfold rad2. f_equal.
    rewrite triangle_area_d_div. fold d.
    replace (16 * (Rabs d / 2) * (Rabs d / 2)) with (4 * (Rabs d * Rabs d)) by field.
    f_equal. rewrite <- Rabs_mult. apply Rabs_right.
    pose proof (Rle_0_sqr d) as Hsq. unfold Rsqr in Hsq. lra. }
  split; [exact Hrad|].
  unfold in_circumcircle. rewrite Hs. simpl. rewrite Hps. simpl.
  rewrite (circumcenter_Ok _ _ _ Hd). simpl. fold c.
  destruct c as [cx cy] eqn:Ec. rewrite Hrad. reflexivity.
Qed.


(** A simplex listed in the neighbor row of one of the three row entries
    of [cur_tri] is in the pool, unless it is the sentinel. *)
Lemma candidate_pool_second_hop (tri : Delaunay) (cur_tri j x : Z)
    (row row' : Z * Z * Z) (C : gset Z) :
  candidate_pool tri cur_tri = Ok C →
  np_get (neighbors tri) cur_tri = Ok row → j ∈ row_list row →
  np_get (neighbors tri) j = Ok row' → x ∈ row_list row' →
  x ≠ (-1)%Z → x ∈ C.
Proof.
  unfold candidate_pool. intros Hrun Hrow Hj Hrow' Hx Hne.
  apply bind_Ok in Hrun as (row0 & Hrow0 & Hrun).
  rewrite Hrow in Hrow0. injection Hrow0 as <-. cbv zeta in Hrun.
  apply bind_Ok in Hrun as (r0 & Hr0 & Hrun).
  apply bind_Ok in Hrun as (r1 & Hr1 & Hrun).
  apply bind_Ok in Hrun as (r2 & Hr2 & Hrun).
  apply Ok_inj in Hrun. rewrite <- Hrun. clear Hrun.
  apply elem_of_difference. split; [|rewrite elem_of_singleton; exact Hne].
  apply elem_of_union. right. apply elem_of_list_to_set.
  rewrite !elem_of_app.
  unfold row_list in Hj. rewrite !elem_of_cons in Hj.
  destruct Hj as [-> | [-> | [-> | Hj]]]; [| | | inversion Hj].
  - rewrite Hrow' in Hr0. injection Hr0 as <-. auto.
  - rewrite Hrow' in Hr1. injection Hr1 as <-. auto.
  - rewrite Hrow' in Hr2. injection Hr2 as <-. auto.
Qed.









(** The root of the surplus candidates: when the neighbor row of
    [cur_tri] holds the sentinel, the row it selects is the last row of
    [tri.neighbors], and the neighbors of the last simplex enter the
    pool. *)
Lemma sentinel_selects_last_row (tri : Delaunay) (cur_tri x : Z)
    (row last_row : Z * Z * Z) (C : gset Z) :
  np_get (neighbors tri) cur_tri = Ok row →
  (-1)%Z ∈ row_list row →
  last (neighbors tri) = Some last_row →
  candidate_pool tri cur_tri = Ok C →
  x ∈ row_list last_row → x ≠ (-1)%Z → x ∈ C.
Proof.
  intros Hrow Hsent Hlast HC Hx Hne.
  apply (candidate_pool_second_hop tri cur_tri (-1) x row last_row C HC Hrow Hsent).
  - rewrite np_get_minus_one, Hlast. reflexivity.
  - exact Hx.
  - exact Hne.
Qed.


End LocalNeighbours.

(** On a concrete simplex with nonzero determinant the test of
    [find_nn_triangles_point] is a comparison of two rational numbers. *)
Ltac circle_test s ps :=
  let H := fresh "H" in
  match goal with
  | |- in_circumcircle ?tri ?pt ?x = Ok ?b =>
      assert (d_div ps.1.1 ps.1.2 ps.2 ≠ 0%R) as H
        by (unfold d_div; simpl; lra);
      destruct (in_circumcircle_Ok tri pt x s ps eq_refl eq_refl H) as [_ ->];
      f_equal; first [apply Rltb_true | apply Rltb_false];
      unfold dist_2, circumcenter_formula, d_div; simpl; lra
  end.

Section LocalNeighbourClaims.
Local Open Scope R_scope.

Lemma strip_pool : candidate_pool strip 0 = Ok ({[0; 1; 2; 3]}%Z : gset Z).
Proof. reflexivity. Qed.

Lemma strip_two_hop_pool : two_hop_pool strip 0 = ({[0; 1; 2]}%Z : gset Z).
Proof. reflexivity. Qed.

Lemma strip_inside_0 : in_circumcircle strip strip_point 0 = Ok true.
Proof. circle_test (0, 1, 4)%Z ((0, 0), (2, 0), (1, 8)). Qed.

Lemma strip_inside_1 : in_circumcircle strip strip_point 1 = Ok true.
Proof. circle_test (1, 5, 4)%Z ((2, 0), (3, 8), (1, 8)). Qed.

Lemma strip_inside_2 : in_circumcircle strip strip_point 2 = Ok true.
Proof. circle_test (1, 2, 5)%Z ((2, 0), (4, 0), (3, 8)). Qed.

Lemma strip_inside_3 : in_circumcircle strip strip_point 3 = Ok true.
Proof. circle_test (2, 6, 5)%Z ((4, 0), (5, 8), (3, 8)). Qed.

Lemma strip_point_location : find_simplex strip strip_point = 0%Z.
Proof. simpl. decide_reals. reflexivity. Qed.

(** The strip is a Delaunay triangulation: every circumcircle is empty. *)
Lemma strip_is_delaunay : empty_circumcircles strip.
Proof.
  intros i q Hi Hq. simpl in Hi, Hq. rewrite !elem_of_cons in Hq.
  destruct Hq as [-> | [-> | [-> | [-> | [-> | [-> | [-> | Hq]]]]]]];
    [| | | | | | | inversion Hq];
    (destruct i as [|[|[|[|[|i]]]]]; [| | | | | lia]);
    first [ circle_test (0, 1, 4)%Z ((0, 0), (2, 0), (1, 8))
          | circle_test (1, 5, 4)%Z ((2, 0), (3, 8), (1, 8))
          | circle_test (1, 2, 5)%Z ((2, 0), (4, 0), (3, 8))
          | circle_test (2, 6, 5)%Z ((4, 0), (5, 8), (3, 8))
          | circle_test (2, 3, 6)%Z ((4, 0), (6, 0), (5, 8)) ].
Qed.

Lemma strip_result :
  ∃ nn, find_nn_triangles_point strip 0 strip_point = Ok nn ∧
        ∀ x, x ∈ nn ↔ x ∈ ({[0; 1; 2; 3]}%Z : gset Z).
Proof.
  assert (∀ x, x ∈ ({[0; 1; 2; 3]}%Z : gset Z) →
               in_circumcircle strip strip_point x = Ok true) as Hall.
  { intros x Hx. rewrite !elem_of_union, !elem_of_singleton in Hx.
    destruct Hx as [[[-> | ->] | ->] | ->].
    - exact strip_inside_0.
    - exact strip_inside_1.
    - exact strip_inside_2.
    - exact strip_inside_3. }
  destruct (find_nn_triangles_point_total strip 0 strip_point _ strip_pool)
    as [nn Hnn].
  { intros x Hx. exists true. apply Hall. exact Hx. }
  exists nn. split; [exact Hnn|].
  destruct (find_nn_triangles_point_members _ _ _ _ Hnn) as (C & HC & _ & Hmem).
  rewrite strip_pool in HC. injection HC as <-.
  intros x. rewrite Hmem. split; [intros [Hx _]; exact Hx|].
  intros Hx. split; [exact Hx | apply Hall; exact Hx].
Qed.

(** C4, where the code departs from the specification.  In every
    triangulation, a containing simplex with a hull edge has the sentinel
    [-1] in its neighbor row; the fancy index
    [tri.neighbors[tri.neighbors[cur_tri]]] reads that [-1] as "the last
    row", so the neighbors of the last simplex enter the pool.  The strip
    shows the effect on a Delaunay triangulation: simplex 0 contains the
    point, simplex 3 is neither a neighbor of simplex 0 nor a neighbor of
    one, yet it is a candidate, passes the circumcircle test and is
    returned. *)
Theorem strip_result_outside_two_hop_pool :
  (∀ (tri : Delaunay) (cur_tri x : Z) (row last_row : Z * Z * Z) (C : gset Z),
     np_get (neighbors tri) cur_tri = Ok row → (-1)%Z ∈ row_list row →
     last (neighbors tri) = Some last_row →
     candidate_pool tri cur_tri = Ok C →
     x ∈ row_list last_row → x ≠ (-1)%Z → x ∈ C) ∧
  empty_circumcircles strip ∧
  find_simplex strip strip_point = 0%Z ∧
  two_hop_pool strip 0 = ({[0; 1; 2]}%Z : gset Z) ∧
  candidate_pool strip 0 = Ok ({[0; 1; 2; 3]}%Z : gset Z) ∧
  ∃ nn, find_nn_triangles_point strip 0 strip_point = Ok nn ∧
        (∀ x, x ∈ nn ↔ x ∈ ({[0; 1; 2; 3]}%Z : gset Z)) ∧
        3%Z ∈ nn ∧ 3%Z ∉ two_hop_pool strip 0.
Proof.
  split; [exact sentinel_selects_last_row|].
  split; [exact strip_is_delaunay|].
  split; [exact strip_point_location|].
  split; [exact strip_two_hop_pool|].
  split; [exact strip_pool|].
  destruct strip_result as (nn & Hnn & Hmem).
  exists nn. split; [exact Hnn|]. split; [exact Hmem|]. split.
  - apply Hmem. rewrite !elem_of_union, !elem_of_singleton. auto.
  - rewrite strip_two_hop_pool. rewrite !elem_of_union, !elem_of_singleton. lia.
Qed.





End LocalNeighbourClaims.

(** ** Natural neighbours of every grid point *)

Lemma in_triangulation_lookup (tri : Delaunay) (data : list point)
    (g : nat) (b : bool) :
  in_triangulation tri data !! g = Some b ↔
  ∃ p, data !! g = Some p ∧ b = bool_decide (0 ≤ find_simplex tri p)%Z.
Proof.
  unfold in_triangulation. rewrite list_lookup_fmap.
  destruct (data !! g) as [p|]; simpl; split.
  - intros H. injection H as <-. eauto.
  - intros (p' & Hp & ->). injection Hp as ->. reflexivity.
  - intros H. discriminate H.
  - intros (p' & Hp & _). discriminate Hp.
Qed.

Lemma in_triangulation_length (tri : Delaunay) (data : list point) :
  length (in_triangulation tri data) = length data.
Proof. unfold in_triangulation. apply length_map. Qed.

Lemma empty_members_lookup_from (k m g : nat) :
  (list_to_map (map (λ key : nat, (key, @nil nat)) (seq k m)) : gmap nat (list nat)) !! g
  = if bool_decide (k ≤ g < k + m) then Some [] else None.
Proof.
  revert k. induction m as [|m IH]; intros k; simpl.
  - rewrite lookup_empty. rewrite bool_decide_eq_false_2 by lia. reflexivity.
  - destruct (decide (k = g)) as [->|Hne].
    + rewrite lookup_insert_eq. rewrite bool_decide_eq_true_2 by lia. reflexivity.
    + rewrite lookup_insert_ne by exact Hne. rewrite IH.
      rewrite (bool_decide_ext (S k ≤ g < S k + m) (k ≤ g < k + S m)) by lia.
      reflexivity.
Qed.

Lemma empty_members_lookup (m g : nat) :
  empty_members m !! g = if bool_decide (g < m) then Some [] else None.
Proof.
  unfold empty_members. rewrite empty_members_lookup_from.
  rewrite (bool_decide_ext (0 ≤ g < 0 + m) (g < m)) by lia. reflexivity.
Qed.

(** *** The inner loop *)

Lemma hits_nil (in_tri : list bool) (g : nat) : hits in_tri [] g = 0.
Proof. unfold hits. case_bool_decide; reflexivity. Qed.

Lemma hits_cons (in_tri : list bool) (q : nat) (qs : list nat) (g : nat) :
  hits in_tri (q :: qs) g = hits in_tri [q] g + hits in_tri qs g.
Proof.
  unfold hits. case_bool_decide; [|reflexivity]. simpl.
  destruct (Nat.eq_dec q g); lia.
Qed.

(** One iteration: the entry of [q] grows by the simplex when [q] is
    flagged, and nothing else changes. *)
Lemma append_member_lookup (in_tri : list bool) (i : nat)
    (members members' : gmap nat (list nat)) (q : nat) :
  append_member in_tri i members q = Ok members' →
  ∀ g, members' !! g =
       (λ l, l ++ replicate (hits in_tri [q] g) i) <$> members !! g.
Proof.
  unfold append_member. intros Hrun.
  apply bind_Ok in Hrun as (flag & Hflag & Hrun). apply py_get_Ok in Hflag.
  destruct flag.
  - destruct (members !! q) as [l|] eqn:Hq; [|discriminate Hrun].
    apply Ok_inj in Hrun. subst members'.
    intros g. unfold hits. simpl. destruct (decide (q = g)) as [->|Hne].
    + rewrite lookup_insert_eq, Hq. simpl.
      rewrite bool_decide_eq_true_2 by exact Hflag.
      destruct (Nat.eq_dec g g) as [_|Hgg]; [reflexivity | contradiction].
    + rewrite lookup_insert_ne by exact Hne.
      destruct (Nat.eq_dec q g) as [Hqg|_]; [contradiction|].
      destruct (members !! g); simpl; [|reflexivity].
      case_bool_decide; simpl; rewrite app_nil_r; reflexivity.
  - apply Ok_inj in Hrun. subst members'.
    intros g. unfold hits. simpl.
    destruct (members !! g); simpl; [|reflexivity].
    case_bool_decide as Hg; simpl.
    + destruct (Nat.eq_dec q g) as [->|_].
      * rewrite Hflag in Hg. discriminate Hg.
      * rewrite app_nil_r. reflexivity.
    + rewrite app_nil_r. reflexivity.
Qed.

(** The whole inner loop of simplex [i]. *)
Lemma append_loop_lookup (in_tri : list bool) (i : nat) (qs : list nat) :
  ∀ members members' : gmap nat (list nat),
    foldM (append_member in_tri i) members qs = Ok members' →
    ∀ g, members' !! g =
         (λ l, l ++ replicate (hits in_tri qs g) i) <$> members !! g.
Proof.
  induction qs as [|q qs IH]; intros members members' Hrun g.
  - simpl in Hrun. apply Ok_inj in Hrun. subst members'.
    rewrite hits_nil. destruct (members !! g); simpl; [|reflexivity].
    rewrite app_nil_r. reflexivity.
  - simpl in Hrun. apply bind_Ok in Hrun as (m1 & Hq & Hrun).
    rewrite (IH _ _ Hrun g), (append_member_lookup _ _ _ _ _ Hq g).
    destruct (members !! g) as [l|]; simpl; [|reflexivity].
    rewrite (hits_cons in_tri q qs g), replicate_add, app_assoc. reflexivity.
Qed.

(** The inner loop never raises when the qualifiers are positions of the
    grid and every grid position has an entry. *)
Lemma append_loop_total (in_tri : list bool) (i : nat) (qs : list nat)
    (members : gmap nat (list nat)) :
  (∀ g, g ∈ qs → g < length in_tri) →
  (∀ g, g < length in_tri → is_Some (members !! g)) →
  ∃ members', foldM (append_member in_tri i) members qs = Ok members'.
Proof.
  intros Hqs Hkeys.
  destruct (foldM_invariant (append_member in_tri i)
              (λ m : gmap nat (list nat), ∀ g, g < length in_tri → is_Some (m !! g))
              (λ g, g < length in_tri) qs members) as (m' & Hm' & _).
  - intros m q Hm Hq. unfold append_member.
    destruct (py_get_lt in_tri q Hq) as [flag ->]. simpl.
    destruct flag; [|eauto].
    destruct (Hm q Hq) as [l Hl]. rewrite Hl. eexists. split; [reflexivity|].
    intros g Hg. destruct (decide (q = g)) as [->|Hne].
    + rewrite lookup_insert_eq. eauto.
    + rewrite lookup_insert_ne by exact Hne. auto.
  - exact Hkeys.
  - apply Forall_forall. exact Hqs.
  - eauto.
Qed.

(** *** One simplex *)

Section Discovery.

Variable kd : list point → point → fval → list nat.
Variable tri : Delaunay.
Variable data : list point.

Lemma visit_simplex_Ok (members members' : gmap nat (list nat))
    (info info' : gmap nat TriangleInfo) (i : nat) (s : Z * Z * Z) :
  visit_simplex kd tri data (in_triangulation tri data) (members, info) (i, s)
    = Ok (members', info') →
  ∃ ps c rad,
    simplex_points tri s = Ok ps ∧
    circumcenter ps.1.1 ps.1.2 ps.2 = Ok c ∧
    circumcircle_radius ps.1.1 ps.1.2 ps.2 = Ok rad ∧
    info' = <[i := {| cc := c; r := rad |}]> info ∧
    foldM (append_member (in_triangulation tri data) i) members (kd data c rad)
      = Ok members'.
Proof.
  unfold visit_simplex. intros Hrun.
  apply bind_Ok in Hrun as (ps & Hps & Hrun).
  apply bind_Ok in Hrun as (c & Hc & Hrun).
  apply bind_Ok in Hrun as (rad & Hrad & Hrun). cbv zeta in Hrun.
  apply bind_Ok in Hrun as (m1 & Hm1 & Hrun). apply Ok_inj in Hrun.
  injection Hrun as <- <-. exists ps, c, rad. auto.
Qed.


Lemma visit_simplex_total (members : gmap nat (list nat))
    (info : gmap nat TriangleInfo) (i : nat) (s : Z * Z * Z)
    (ps : point * point * point) :
  kd_in_range kd →
  (∀ g, is_Some (members !! g) ↔ g < length data) →
  simplex_points tri s = Ok ps →
  d_div ps.1.1 ps.1.2 ps.2 ≠ 0%R →
  ∃ st', visit_simplex kd tri data (in_triangulation tri data) (members, info) (i, s)
         = Ok st'.
Proof.
  intros Hkd Hkeys Hps Hd. unfold visit_simplex. rewrite Hps. simpl.
  rewrite (circumcenter_Ok _ _ _ Hd). simpl.
  rewrite (circumcircle_radius_Ok ps.1.1 ps.1.2 ps.2)
    by (apply triangle_area_pos_iff; exact Hd).
  simpl.
  match goal with
  | |- context [foldM ?f members ?qs] =>
      destruct (append_loop_total (in_triangulation tri data) i qs members)
        as [m' Hm']
  end.
  - intros g Hg. rewrite in_triangulation_length. eapply Hkd. exact Hg.
  - intros g Hg. rewrite in_triangulation_length in Hg. apply Hkeys. exact Hg.
  - rewrite Hm'. simpl. eauto.
Qed.

(** A visit keeps the loop invariant. *)
Lemma visit_simplex_state (k : nat) (members members' : gmap nat (list nat))
    (info info' : gmap nat TriangleInfo) (s : Z * Z * Z) :
  simplices tri !! k = Some s →
  discovery_state kd tri data k members info →
  visit_simplex kd tri data (in_triangulation tri data) (members, info) (k, s)
    = Ok (members', info') →
  discovery_state kd tri data (S k) members' info'.
Proof.
  intros Hs [Hkeys Hvis Hbound Hmem Hinfo] Hrun.
  apply visit_simplex_Ok in Hrun as (ps & c & rad & Hps & Hc & Hrad & -> & Hloop).
  pose proof (append_loop_lookup _ _ _ _ _ Hloop) as Hlook.
  assert (d_div ps.1.1 ps.1.2 ps.2 ≠ 0%R) as Hd
    by (apply circumcenter_Ok_inv in Hc as [Hd _]; exact Hd).
  split.
  - intros g. rewrite Hlook, <- Hkeys. rewrite fmap_is_Some. reflexivity.
  - intros i. destruct (decide (k = i)) as [->|Hne].
    + rewrite lookup_insert_eq. split; [lia | eauto].
    + rewrite lookup_insert_ne by exact Hne. rewrite Hvis. lia.
  - intros g l x Hl Hx. rewrite Hlook in Hl.
    destruct (members !! g) as [l0|] eqn:Hg; [|discriminate Hl].
    simpl in Hl. injection Hl as <-.
    apply elem_of_app in Hx as [Hx|Hx].
    + specialize (Hbound g l0 x Hg Hx). lia.
    + apply elem_of_replicate in Hx as [-> _]. lia.
  - intros g l i t Hl Ht. rewrite Hlook in Hl.
    destruct (members !! g) as [l0|] eqn:Hg; [|discriminate Hl].
    simpl in Hl. injection Hl as <-. rewrite count_occ_app.
    assert (count_occ Nat.eq_dec l0 k = 0) as Hfresh.
    { apply count_occ_not_In. intros Hin. apply list_elem_of_In in Hin.
      specialize (Hbound g l0 k Hg Hin). lia. }
    destruct (decide (k = i)) as [->|Hne].
    + rewrite lookup_insert_eq in Ht. injection Ht as <-. simpl.
      rewrite Hfresh. simpl. clear.
      induction (hits _ _ g) as [|h IH]; simpl; [reflexivity|].
      destruct (Nat.eq_dec i i) as [_|Hii]; [lia | contradiction].
    + rewrite lookup_insert_ne in Ht by exact Hne.
      rewrite (Hmem g l0 i t Hg Ht).
      assert (count_occ Nat.eq_dec (replicate (hits (in_triangulation tri data)
                (kd data c rad) g) k) i = 0) as ->; [|lia].
      apply count_occ_not_In. intros Hin. apply list_elem_of_In in Hin.
      apply elem_of_replicate in Hin as [-> _]. contradiction.
  - intros i t Ht. destruct (decide (k = i)) as [->|Hne].
    + rewrite lookup_insert_eq in Ht. injection Ht as <-. simpl.
      pose proof Hrad as Hrad'.
      rewrite (circumcircle_radius_Ok ps.1.1 ps.1.2 ps.2) in Hrad'
        by (apply triangle_area_pos_iff; exact Hd).
      apply Ok_inj in Hrad'. exists s, ps. eexists.
      split; [exact Hs|]. split; [exact Hps|]. split; [exact Hd|].
      split; [exact Hc|]. split; [exact Hrad|]. symmetry. exact Hrad'.
    + rewrite lookup_insert_ne in Ht by exact Hne. apply Hinfo. exact Ht.
Qed.

(** *** The loop over the simplices *)

Lemma discovery_start :
  discovery_state kd tri data 0 (empty_members (length data)) ∅.
Proof.
  split.
  - intros g. rewrite empty_members_lookup. case_bool_decide as Hg.
    + split; [intros _; exact Hg | eauto].
    + split; [intros [l Hl]; discriminate Hl | intros Hlt; contradiction].
  - intros i. rewrite lookup_empty. split; [intros [t Ht]; discriminate Ht | lia].
  - intros g l x Hl Hx. rewrite empty_members_lookup in Hl.
    case_bool_decide; [|discriminate Hl]. injection Hl as <-. inversion Hx.
  - intros g l i t _ Ht. rewrite lookup_empty in Ht. discriminate Ht.
  - intros i t Ht. rewrite lookup_empty in Ht. discriminate Ht.
Qed.

Lemma discovery_run (l : list (Z * Z * Z)) :
  ∀ (k : nat) (members members' : gmap nat (list nat))
    (info info' : gmap nat TriangleInfo),
    (∀ j s, l !! j = Some s → simplices tri !! (k + j) = Some s) →
    discovery_state kd tri data k members info →
    foldM (visit_simplex kd tri data (in_triangulation tri data))
          (members, info) (zip (seq k (length l)) l) = Ok (members', info') →
    discovery_state kd tri data (k + length l) members' info'.
Proof.
  induction l as [|s l IH]; intros k members members' info info' Hl Hst Hrun.
  - simpl in Hrun. apply Ok_inj in Hrun. injection Hrun as <- <-.
    simpl. rewrite Nat.add_0_r. exact Hst.
  - change (zip (seq k (length (s :: l))) (s :: l))
      with ((k, s) :: zip (seq (S k) (length l)) l) in Hrun.
    rewrite foldM_cons in Hrun.
    apply bind_Ok in Hrun as ([m1 info1] & Hvisit & Hrun).
    simpl. rewrite <- Nat.add_succ_comm.
    apply (IH (S k) m1 members' info1 info').
    + intros j s' Hj. rewrite Nat.add_succ_comm. apply Hl. exact Hj.
    + apply (visit_simplex_state k members m1 info info1 s).
      * specialize (Hl 0 s eq_refl). rewrite Nat.add_0_r in Hl. exact Hl.
      * exact Hst.
      * exact Hvisit.
    + exact Hrun.
Qed.

(** Every run that returns ends in the state of a full pass. *)
Lemma find_natural_neighbors_state (members : gmap nat (list nat))
    (info : gmap nat TriangleInfo) :
  find_natural_neighbors kd tri data = Ok (members, info) →
  discovery_state kd tri data (length (simplices tri)) members info.
Proof.
  unfold find_natural_neighbors, enumerate. cbv zeta. intros Hrun.
  apply (discovery_run (simplices tri) 0 (empty_members (length data)) members ∅ info).
  - intros j s Hj. exact Hj.
  - apply discovery_start.
  - exact Hrun.
Qed.

(** With valid simplex rows and a well-behaved radius query the pass can
    only end in two ways: it returns, or [circumcenter] raises on the
    first degenerate simplex. *)
Lemma discovery_total (l : list (Z * Z * Z)) :
  kd_in_range kd →
  (∀ s, s ∈ l → ∃ ps, simplex_points tri s = Ok ps ∧ d_div ps.1.1 ps.1.2 ps.2 ≠ 0%R) →
  ∀ (k : nat) (members : gmap nat (list nat)) (info : gmap nat TriangleInfo),
    (∀ g, is_Some (members !! g) ↔ g < length data) →
    ∃ st', foldM (visit_simplex kd tri data (in_triangulation tri data))
                 (members, info) (zip (seq k (length l)) l) = Ok st'.
Proof.
  intros Hkd. induction l as [|s l IH]; intros Hl k members info Hkeys.
  - simpl. eauto.
  - change (zip (seq k (length (s :: l))) (s :: l))
      with ((k, s) :: zip (seq (S k) (length l)) l).
    rewrite foldM_cons.
    destruct (Hl s) as (ps & Hps & Hd); [left|].
    destruct (visit_simplex_total members info k s ps Hkd Hkeys Hps Hd)
      as [[m1 info1] Hvisit].
    rewrite Hvisit. simpl. apply IH.
    + intros s' Hs'. apply Hl. right. exact Hs'.
    + apply visit_simplex_Ok in Hvisit as (? & c & rad & _ & _ & _ & _ & Hloop).
      intros g. rewrite (append_loop_lookup _ _ _ _ _ Hloop g), fmap_is_Some.
      apply Hkeys.
Qed.


End Discovery.

(** *** The reference radius query *)

Lemma ball_query_in_range : kd_in_range ball_query.
Proof.
  intros data x rad g Hg. destruct rad as [rad|]; simpl in Hg; [|inversion Hg].
  apply list_elem_of_In, filter_In in Hg as [Hg _]. apply in_seq in Hg. lia.
Qed.

Lemma ball_query_nodup : kd_nodup ball_query.
Proof.
  intros data x rad. apply NoDup_ListNoDup.
  destruct rad as [rad|]; simpl; [|constructor].
  apply List.NoDup_filter, seq_NoDup.
Qed.

(** *** The membership map *)

Lemma valid_simplices_unit_square : valid_simplices unit_square.
Proof.
  intros s Hs. simpl in Hs. rewrite !elem_of_cons in Hs.
  destruct Hs as [-> | [-> | Hs]]; [| | inversion Hs]; eexists; reflexivity.
Qed.

Lemma unit_square_no_degenerate : ¬ has_degenerate_simplex unit_square.
Proof.
  intros (s & ps & Hs & Hps & Hdeg). unfold degenerate in Hdeg.
  apply triangle_area_zero_iff in Hdeg.
  simpl in Hs. rewrite !elem_of_cons in Hs.
  destruct Hs as [-> | [-> | Hs]]; [| | inversion Hs];
    apply Ok_inj in Hps; subst ps; unfold d_div in Hdeg; simpl in Hdeg; lra.
Qed.








(** C8: the membership map that [find_natural_neighbors] returns has an
    entry for exactly the grid-point indices, every entry is free of
    duplicates (the radius query reporting each grid point at most once),
    and a grid point inside no simplex has an empty entry. *)
Theorem membership_map_shape :
  ∀ (kd : list point → point → fval → list nat) (tri : Delaunay)
    (grid_points : list point) (members : gmap nat (list nat))
    (info : gmap nat TriangleInfo),
    kd_nodup kd →
    find_natural_neighbors kd tri grid_points = Ok (members, info) →
    (∀ g, is_Some (members !! g) ↔ g < length grid_points) ∧
    (∀ g l, members !! g = Some l → NoDup l) ∧
    (∀ g p, grid_points !! g = Some p → (find_simplex tri p < 0)%Z →
            members !! g = Some []).
Proof.
  intros kd tri grid_points members info Hnd Hrun.
  pose proof (find_natural_neighbors_state kd tri grid_points members info Hrun)
    as [Hkeys Hvis Hbound Hmem Hinfo].
  assert (∀ g l x, members !! g = Some l → info !! x = None →
                   count_occ Nat.eq_dec l x = 0) as Hunvisited.
  { intros g l x Hl Hx. apply count_occ_not_In. intros Hin.
    apply list_elem_of_In in Hin. specialize (Hbound g l x Hl Hin).
    apply Hvis in Hbound as [t Ht]. rewrite Ht in Hx. discriminate Hx. }
  split; [exact Hkeys|]. split.
  - intros g l Hl. apply NoDup_ListNoDup, (NoDup_count_occ Nat.eq_dec). intros x.
    destruct (info !! x) as [t|] eqn:Ht.
    + rewrite (Hmem g l x t Hl Ht). unfold hits. case_bool_decide; [|lia].
      apply NoDup_count_occ, NoDup_ListNoDup. apply Hnd.
    + rewrite (Hunvisited g l x Hl Ht). lia.
  - intros g p Hp Hneg.
    destruct (proj2 (Hkeys g)) as [l Hl].
    { apply lookup_lt_Some in Hp. exact Hp. }
    rewrite Hl. f_equal. apply (count_occ_inv_nil Nat.eq_dec). intros x.
    destruct (info !! x) as [t|] eqn:Ht.
    + rewrite (Hmem g l x t Hl Ht). unfold hits.
      rewrite bool_decide_eq_false_2; [reflexivity|].
      intros Hflag. apply in_triangulation_lookup in Hflag as (p' & Hp' & Hb).
      rewrite Hp in Hp'. injection Hp' as <-.
      symmetry in Hb. apply bool_decide_eq_true_1 in Hb. lia.
    + apply (Hunvisited g l x Hl Ht).
Qed.

Lemma unit_square_grid_outside :
  unit_square_grid !! 1 = Some (1.125, 0.5)%R ∧
  (find_simplex unit_square (1.125, 0.5)%R < 0)%Z ∧
  in_circumcircle unit_square (1.125, 0.5)%R 0 = Ok true.
Proof.
  split; [reflexivity|]. split.
  - simpl. decide_reals. simpl. lia.
  - circle_test (0, 1, 2)%Z ((0, 0), (1, 0), (1, 1))%R.
Qed.

(** The theorem above at the unit square: both grid points have an entry,
    and the entry of the second grid point, which lies outside the square
    though inside the circumcircle of simplex 0, is empty. *)
Lemma membership_map_shape_witness :
  ∃ members info,
    find_natural_neighbors ball_query unit_square unit_square_grid
      = Ok (members, info) ∧
    ((∀ g, is_Some (members !! g) ↔ g < 2) ∧
     (∀ g l, members !! g = Some l → NoDup l) ∧
     (∀ g p, unit_square_grid !! g = Some p →
             (find_simplex unit_square p < 0)%Z → members !! g = Some [])) ∧
    members !! 1 = Some [].
Proof.
  destruct (discovery_total ball_query unit_square unit_square_grid
              (simplices unit_square) ball_query_in_range) with
    (k := 0) (members := empty_members (length unit_square_grid))
    (info := (∅ : gmap nat TriangleInfo)) as [[members info] Hrun].
  - intros s Hs. destruct (valid_simplices_unit_square s Hs) as [ps Hps].
    exists ps. split; [exact Hps|]. intros Hz.
    apply unit_square_no_degenerate. exists s, ps.
    split; [exact Hs|]. split; [exact Hps|].
    apply triangle_area_zero_iff. exact Hz.
  - intros g.
    apply (ds_keys _ _ _ _ _ _
             (discovery_start ball_query unit_square unit_square_grid)).
  - exists members, info.
    assert (find_natural_neighbors ball_query unit_square unit_square_grid
            = Ok (members, info)) as Hfnn by exact Hrun.
    split; [exact Hfnn|].
    pose proof (membership_map_shape ball_query unit_square unit_square_grid
                  members info ball_query_nodup Hfnn) as Hshape.
    split; [exact Hshape|].
    destruct Hshape as (_ & _ & Hout).
    destruct unit_square_grid_outside as (Hp & Hneg & _).
    exact (Hout 1 _ Hp Hneg).
Defined.

(* ================================================================== *)
(** * Part III: further properties of the module                        *)
(* ================================================================== *)

(** ** Distances and triangles *)

Section GeometryLaws.
Local Open Scope R_scope.


















End GeometryLaws.

(** ** The shoelace formula *)

Section ShoelaceLaws.
Local Open Scope R_scope.

(** A loop over [range(len(xs))] whose body reads position [i] of [xs] is
    a left fold over [xs]. *)
Lemma foldM_seq_lookup {S X : Type} (f : S → nat → result S) (F : S → X → S)
    (xs : list X) :
  ∀ (k : nat) (a : S),
    (∀ i x s, xs !! i = Some x → f s (k + i)%nat = Ok (F s x)) →
    foldM f a (seq k (length xs)) = Ok (fold_left F xs a).
Proof.
  induction xs as [|x xs IH]; intros k a Hf; simpl; [reflexivity|].
  rewrite <- (Nat.add_0_r k) at 1. rewrite (Hf 0%nat x a eq_refl). simpl.
  apply IH. intros i y s Hy. rewrite Nat.add_succ_comm. apply Hf. exact Hy.
Qed.

(** The vertex after position [i], with the wrap-around of the loop. *)
Lemma next_vertex (p : point) (rest : list point) (i : nat) :
  (i < S (length rest))%nat →
  (p :: rest) !! ((i + 1) mod S (length rest))%nat = (rest ++ [p]) !! i.
Proof.
  intros Hi. destruct (decide (i = length rest)) as [->|Hne].
  - replace (length rest + 1)%nat with (S (length rest)) by lia.
    rewrite Nat.Div0.mod_same. simpl.
    rewrite lookup_app_r by lia. rewrite Nat.sub_diag. reflexivity.
  - rewrite Nat.mod_small by lia. rewrite lookup_app_l by lia.
    replace (i + 1)%nat with (S i) by lia. reflexivity.
Qed.

Lemma fold_path (l : list point) :
  ∀ (p z : point) (a : R),
    fold_left (λ (a : R) (pq : point * point), a + cross pq.1 pq.2)
              (zip (p :: l) (l ++ [z])) a
    = a + path_sum p (l ++ [z]).
Proof.
  induction l as [|y l IH]; intros p z a; simpl.
  - ring.
  - specialize (IH y z (a + cross p y)). simpl in IH. rewrite IH. ring.
Qed.

(** [area] computes the shoelace formula. *)
Lemma area_shoelace (poly : list point) :
  area poly = Ok (Rabs (shoelace_sum poly) / 2).
Proof.
  assert (∀ x, x / 2.0 = x / 2) as Hhalf
    by (intros x; replace 2.0 with 2 by lra; reflexivity).
  unfold area. cbv zeta. destruct poly as [|p rest]; [simpl; f_equal; apply Hhalf|].
  set (xs := zip (p :: rest) (rest ++ [p])).
  assert (length xs = length (p :: rest)) as Hlen.
  { unfold xs. rewrite length_zip_with, length_app. cbn [length]. lia. }
  rewrite <- Hlen.
  rewrite (foldM_seq_lookup _
             (λ (a : R) (pq : point * point), a + cross pq.1 pq.2) xs 0%nat 0).
  - unfold xs. rewrite fold_path. simpl. f_equal. rewrite Hhalf. do 2 f_equal. lra.
  - intros i [u v] s Hi. simpl.
    unfold xs in Hi. apply lookup_zip_with_Some in Hi as (u' & v' & Heq & Hu & Hv).
    injection Heq as -> ->.
    assert (i < S (length rest))%nat as Hlt.
    { apply lookup_lt_Some in Hu. simpl in Hu. exact Hu. }
    rewrite Hlen. simpl length.
    assert (py_get (p :: rest) i = Ok u') as -> by (apply py_get_Ok; exact Hu).
    assert (py_get (p :: rest) ((i + 1) mod S (length rest)) = Ok v') as ->.
    { apply py_get_Ok. rewrite next_vertex by exact Hlt. exact Hv. }
    reflexivity.
Qed.









(** X8: the shoelace area of three vertices is the area [triangle_area]
    gives for them. *)
Theorem area_of_triangle :
  ∀ a b c : point, area [a; b; c] = Ok (triangle_area a b c).
Proof.
  intros a b c. rewrite area_shoelace. unfold triangle_area. cbv zeta.
  do 3 f_equal. simpl. unfold cross. ring.
Qed.


End ShoelaceLaws.

(** ** Assembling a boundary *)

Lemma foldM_keeps {A S : Type} (f : S → A → result S) (I : S → Prop)
    (l : list A) :
  (∀ s x s', I s → f s x = Ok s' → I s') →
  ∀ s s', I s → foldM f s l = Ok s' → I s'.
Proof.
  intros Hstep. induction l as [|x l IH]; intros s s' Hs Hrun; simpl in Hrun.
  - apply Ok_inj in Hrun. subst s'. exact Hs.
  - apply bind_Ok in Hrun as (s1 & Hf & Hrun).
    apply (IH s1 s'); [eapply Hstep; eassumption | exact Hrun].
Qed.

Lemma foldM_total {A S : Type} (f : S → A → result S) (l : list A) :
  (∀ s x, ∃ s', f s x = Ok s') → ∀ s, ∃ s', foldM f s l = Ok s'.
Proof.
  intros Hf. induction l as [|x l IH]; intros s; simpl; [eauto|].
  destruct (Hf s x) as [s1 ->]. simpl. apply IH.
Qed.

(** What one update does to the collection: it drops one stored copy of
    the incoming edge or of its reverse, or it appends the incoming edge
    when neither is stored. *)
Lemma add_edge_effect (edges edges' : list Edge) (c d : Z) :
  add_edge edges c d = Ok edges' →
  (∃ x l1 l2, (x = (c, d) ∨ x = (d, c)) ∧
              edges = l1 ++ x :: l2 ∧ edges' = l1 ++ l2) ∨
  (((c, d) ∉ edges) ∧ ((d, c) ∉ edges) ∧ edges' = edges ++ [(c, d)]).
Proof.
  intros Hrun.
  destruct (decide ((c, d) ∈ edges)) as [Hin|Hout].
  - destruct (add_edge_same_direction edges c d Hin) as (l1 & l2 & Heq & _ & Hrun').
    rewrite Hrun' in Hrun. apply Ok_inj in Hrun. left.
    exists (c, d), l1, l2. auto.
  - destruct (decide ((d, c) ∈ edges)) as [Hrev|Hnrev].
    + destruct (add_edge_reverse edges c d Hout Hrev) as (l1 & l2 & Heq & _ & Hrun').
      rewrite Hrun' in Hrun. apply Ok_inj in Hrun. left.
      exists (d, c), l1, l2. auto.
    + rewrite (add_edge_fresh edges c d Hout Hnrev) in Hrun.
      apply Ok_inj in Hrun. right. auto.
Qed.

Lemma add_edge_total (edges : list Edge) (c d : Z) :
  ∃ edges', add_edge edges c d = Ok edges'.
Proof.
  destruct (decide ((c, d) ∈ edges)) as [Hin|Hout].
  - destruct (add_edge_same_direction edges c d Hin) as (l1 & l2 & _ & _ & Hrun).
    eauto.
  - destruct (decide ((d, c) ∈ edges)) as [Hrev|Hnrev].
    + destruct (add_edge_reverse edges c d Hout Hrev) as (l1 & l2 & _ & _ & Hrun).
      eauto.
    + rewrite (add_edge_fresh edges c d Hout Hnrev). eauto.
Qed.

Lemma add_edge_clean (edges edges' : list Edge) (c d : Z) :
  clean_boundary edges → add_edge edges c d = Ok edges' → clean_boundary edges'.
Proof.
  intros [Hnd Hrev] Hrun.
  destruct (add_edge_effect _ _ _ _ Hrun)
    as [(x & l1 & l2 & _ & -> & ->) | (Hout & Hnrev & ->)].
  - split.
    + apply NoDup_app in Hnd as (H1 & H12 & H2). apply NoDup_cons in H2 as [_ H2].
      apply NoDup_app. split; [exact H1|]. split; [|exact H2].
      intros y Hy Hy2. apply (H12 y Hy). right. exact Hy2.
    + intros a b Hab Hin Hin'. apply (Hrev a b Hab).
      * rewrite elem_of_app in Hin |- *. rewrite elem_of_cons. tauto.
      * rewrite elem_of_app in Hin' |- *. rewrite elem_of_cons. tauto.
  - split.
    + apply NoDup_app. split; [exact Hnd|]. split; [|apply NoDup_singleton].
      intros y Hy Hy'. apply list_elem_of_singleton in Hy'. subst y. contradiction.
    + intros a b Hab Hin Hin'.
      rewrite elem_of_app, list_elem_of_singleton in Hin, Hin'.
      destruct Hin as [Hin|Hin], Hin' as [Hin'|Hin'].
      * exact (Hrev a b Hab Hin Hin').
      * injection Hin' as -> ->. contradiction.
      * injection Hin as -> ->. contradiction.
      * injection Hin as -> ->. injection Hin' as Hba _. congruence.
Qed.

Lemma add_edge_origin (edges edges' : list Edge) (c d : Z) (x : Edge) :
  add_edge edges c d = Ok edges' → x ∈ edges' → x ∈ edges ∨ x = (c, d).
Proof.
  intros Hrun Hx.
  destruct (add_edge_effect _ _ _ _ Hrun)
    as [(y & l1 & l2 & _ & -> & ->) | (_ & _ & ->)].
  - left. rewrite elem_of_app in Hx |- *. rewrite elem_of_cons. tauto.
  - rewrite elem_of_app, list_elem_of_singleton in Hx. exact Hx.
Qed.

Lemma count_occ_one (x y : Edge) :
  count_occ Edge_eq_dec [x] y = if decide (x = y) then 1 else 0.
Proof. simpl. unfold Edge_eq_dec. destruct (decide (x = y)); reflexivity. Qed.

(** The parity of the number of stored copies of an undirected edge
    follows the parity of its arrivals. *)
Lemma add_edge_parity (edges edges' : list Edge) (c d a b : Z) :
  a ≠ b → add_edge edges c d = Ok edges' →
  Nat.odd (undirected_count edges' a b)
  = xorb (Nat.odd (undirected_count edges a b))
         (Nat.odd (undirected_count [(c, d)] a b)).
Proof.
  intros Hab Hrun. unfold undirected_count.
  assert (∀ x : Edge, (x = (c, d) ∨ x = (d, c)) →
            count_occ Edge_eq_dec [x] (a, b) + count_occ Edge_eq_dec [x] (b, a)
            = count_occ Edge_eq_dec [(c, d)] (a, b)
              + count_occ Edge_eq_dec [(c, d)] (b, a)) as Hone.
  { intros x Hx. rewrite !count_occ_one.
    destruct Hx as [-> | ->]; repeat case_decide; simplify_eq; lia. }
  assert (count_occ Edge_eq_dec [(c, d)] (a, b)
          + count_occ Edge_eq_dec [(c, d)] (b, a) ≤ 1) as Hle.
  { rewrite !count_occ_one. repeat case_decide; simplify_eq; lia. }
  destruct (add_edge_effect _ _ _ _ Hrun)
    as [(x & l1 & l2 & Hx & -> & ->) | (_ & _ & ->)].
  - specialize (Hone x Hx).
    rewrite !count_occ_app.
    change (x :: l2) with ([x] ++ l2). rewrite !count_occ_app.
    match goal with
    | |- Nat.odd ?s = xorb (Nat.odd ?t) (Nat.odd ?k) =>
        replace t with (s + k) by (unfold Edge in *; lia);
        rewrite (Nat.odd_add s k)
    end.
    rewrite xorb_assoc, xorb_nilpotent, xorb_false_r. reflexivity.
  - rewrite !count_occ_app.
    match goal with
    | |- Nat.odd ?s = xorb (Nat.odd ?t) (Nat.odd ?k) =>
        replace s with (t + k) by (unfold Edge in *; lia)
    end.
    apply Nat.odd_add.
Qed.

Lemma undirected_count_app (l1 l2 : list Edge) (a b : Z) :
  undirected_count (l1 ++ l2) a b
  = undirected_count l1 a b + undirected_count l2 a b.
Proof. unfold undirected_count. rewrite !count_occ_app. lia. Qed.

Lemma boundary_fold_parity (es : list Edge) (a b : Z) :
  a ≠ b →
  ∀ edges edges',
    foldM (λ edges e, add_edge edges e.1 e.2) edges es = Ok edges' →
    Nat.odd (undirected_count edges' a b)
    = xorb (Nat.odd (undirected_count edges a b))
           (Nat.odd (undirected_count es a b)).
Proof.
  intros Hab. induction es as [|[c d] es IH]; intros edges edges' Hrun.
  - simpl in Hrun. apply Ok_inj in Hrun. subst edges'.
    unfold undirected_count at 3. simpl. rewrite xorb_false_r. reflexivity.
  - simpl in Hrun. apply bind_Ok in Hrun as (e1 & Hstep & Hrun).
    rewrite (IH _ _ Hrun), (add_edge_parity _ _ _ _ _ _ Hab Hstep).
    change ((c, d) :: es) with ([(c, d)] ++ es).
    rewrite undirected_count_app, Nat.odd_add, xorb_assoc. reflexivity.
Qed.

Lemma clean_boundary_count (edges : list Edge) (a b : Z) :
  clean_boundary edges → a ≠ b →
  (((a, b) ∈ edges ∨ (b, a) ∈ edges) ↔ Nat.odd (undirected_count edges a b) = true).
Proof.
  intros [Hnd Hrev] Hab. unfold undirected_count.
  apply NoDup_ListNoDup in Hnd.
  pose proof (proj1 (NoDup_count_occ Edge_eq_dec edges) Hnd (a, b)) as H1.
  pose proof (proj1 (NoDup_count_occ Edge_eq_dec edges) Hnd (b, a)) as H2.
  pose proof (count_occ_In Edge_eq_dec edges (a, b)) as I1.
  pose proof (count_occ_In Edge_eq_dec edges (b, a)) as I2.
  rewrite <- !list_elem_of_In in I1, I2.
  assert (¬ ((a, b) ∈ edges ∧ (b, a) ∈ edges)) as Hnot.
  { intros [Hi Hj]. exact (Hrev a b Hab Hi Hj). }
  set (u := count_occ Edge_eq_dec edges (a, b)) in *.
  set (v := count_occ Edge_eq_dec edges (b, a)) in *.
  assert (u = 0 ∨ u = 1) as [Hu|Hu] by lia;
    assert (v = 0 ∨ v = 1) as [Hv|Hv] by lia; rewrite Hu, Hv in *; simpl.
  - split; [intros [H|H]; [apply I1 in H | apply I2 in H]; lia | discriminate].
  - split; [reflexivity|]. intros _. right. apply I2. lia.
  - split; [reflexivity|]. intros _. left. apply I1. lia.
  - exfalso. apply Hnot. split; [apply I1 | apply I2]; lia.
Qed.

Lemma np_get_valid {A : Type} (a : list A) (i : Z) :
  np_valid (length a) i → ∃ x, np_get a i = Ok x.
Proof.
  unfold np_valid, np_get, np_index. intros Hi.
  case_bool_decide as H1; simpl.
  - apply py_get_lt. lia.
  - rewrite bool_decide_eq_true_2 by lia. simpl. apply py_get_lt. lia.
Qed.

Lemma np_get_invalid {A : Type} (a : list A) (i : Z) :
  ¬ np_valid (length a) i → np_get a i = Raise IndexError.
Proof.
  unfold np_valid, np_get, np_index. intros Hi.
  rewrite bool_decide_eq_false_2 by lia.
  rewrite bool_decide_eq_false_2 by lia. reflexivity.
Qed.

Lemma np_get_Ok_valid {A : Type} (a : list A) (i : Z) (x : A) :
  np_get a i = Ok x → np_valid (length a) i.
Proof.
  intros H. destruct (decide (np_valid (length a) i)) as [Hv|Hv]; [exact Hv|].
  rewrite (np_get_invalid a i Hv) in H. discriminate H.
Qed.

(** The inner loop over the three edges of one triangle. *)
Lemma triangle_loop_invalid (tri : Delaunay) (edges : list Edge) (triangle : Z) :
  ¬ np_valid (length (simplices tri)) triangle →
  foldM (λ edges i,
           row1 ← np_get (simplices tri) triangle;
           let pt1 := row_nth row1 i in
           row2 ← np_get (simplices tri) triangle;
           let pt2 := row_nth row2 ((i + 1) mod 3) in
           add_edge edges pt1 pt2) edges (seq 0 3)
  = Raise IndexError.
Proof.
  intros Hv. simpl. rewrite (np_get_invalid _ _ Hv). reflexivity.
Qed.

Lemma boundary_fold_total (es : list Edge) (edges : list Edge) :
  ∃ edges', foldM (λ edges e, add_edge edges e.1 e.2) edges es = Ok edges'.
Proof.
  apply foldM_total. intros s x. apply add_edge_total.
Qed.

(** [find_local_boundary] started from any collection: it returns exactly
    when every triangle id is valid, and then it is the fold of the edge
    update over [triangle_edges]. *)
Lemma find_local_boundary_from (tri : Delaunay) (triangles : list Z) :
  ∀ edges : list Edge,
    let loop :=
      foldM (λ edges triangle,
               foldM (λ edges i,
                        row1 ← np_get (simplices tri) triangle;
                        let pt1 := row_nth row1 i in
                        row2 ← np_get (simplices tri) triangle;
                        let pt2 := row_nth row2 ((i + 1) mod 3) in
                        add_edge edges pt1 pt2)
                     edges (seq 0 3))
            edges triangles in
    (Forall (np_valid (length (simplices tri))) triangles →
       loop = foldM (λ edges e, add_edge edges e.1 e.2) edges
                    (triangle_edges tri triangles)) ∧
    (¬ Forall (np_valid (length (simplices tri))) triangles →
       loop = Raise IndexError).
Proof.
  induction triangles as [|t ts IH]; intros edges loop; unfold loop; clear loop.
  - split; [reflexivity|]. intros H. exfalso. apply H. constructor.
  - rewrite foldM_cons.
    destruct (decide (np_valid (length (simplices tri)) t)) as [Hv|Hv].
    + destruct (np_get_valid _ _ Hv) as [row Hrow].
      pose proof (find_local_boundary_step tri edges t row Hrow) as Hstep.
      cbv zeta in Hstep. cbv zeta. rewrite Hstep. clear Hstep.
      unfold triangle_edges. cbn [map concat]. rewrite Hrow, foldM_app.
      destruct (boundary_fold_total (directed_edges row) edges) as [e1 He1].
      rewrite He1. cbn [mbind result_bind].
      destruct (IH e1) as [IHok IHbad]. cbv zeta in IHok, IHbad. split.
      * intros Hall. apply IHok. inversion Hall; assumption.
      * intros Hnot. apply IHbad. intros Hall. apply Hnot. constructor; assumption.
    + pose proof (triangle_loop_invalid tri edges t Hv) as Hbad.
      cbv zeta in Hbad. cbv zeta. rewrite Hbad. split; [|reflexivity].
      intros Hall. inversion Hall; contradiction.
Qed.

Lemma find_local_boundary_Ok (tri : Delaunay) (triangles : list Z)
    (edges : list Edge) :
  find_local_boundary tri triangles = Ok edges →
  Forall (np_valid (length (simplices tri))) triangles ∧
  foldM (λ edges e, add_edge edges e.1 e.2) [] (triangle_edges tri triangles)
    = Ok edges.
Proof.
  unfold find_local_boundary. cbv zeta. intros Hrun.
  destruct (find_local_boundary_from tri triangles []) as [Hok Hbad].
  cbv zeta in Hok, Hbad.
  destruct (decide (Forall (np_valid (length (simplices tri))) triangles))
    as [Hall|Hnot].
  - split; [exact Hall|]. rewrite <- (Hok Hall). exact Hrun.
  - rewrite (Hbad Hnot) in Hrun. discriminate Hrun.
Qed.

(** X10: [find_local_boundary] returns exactly when every triangle id is
    an index numpy accepts for [tri.simplices] (negative ids count from
    the end); any other id ends the call with [IndexError].  Removing an
    edge never fails. *)
Theorem find_local_boundary_returns_iff_valid :
  ∀ (tri : Delaunay) (triangles : list Z),
    ((∃ edges, find_local_boundary tri triangles = Ok edges) ↔
     Forall (np_valid (length (simplices tri))) triangles) ∧
    (¬ Forall (np_valid (length (simplices tri))) triangles →
     find_local_boundary tri triangles = Raise IndexError).
Proof.
  intros tri triangles.
  destruct (find_local_boundary_from tri triangles []) as [Hok Hbad].
  cbv zeta in Hok, Hbad. split; [split|].
  - intros [edges Hrun]. apply (find_local_boundary_Ok _ _ _ Hrun).
  - intros Hall. unfold find_local_boundary. cbv zeta. rewrite (Hok Hall).
    apply boundary_fold_total.
  - exact Hbad.
Qed.

Lemma triangle_edges_origin (tri : Delaunay) (triangles : list Z) (x : Edge) :
  x ∈ triangle_edges tri triangles →
  ∃ t row, t ∈ triangles ∧ np_get (simplices tri) t = Ok row ∧
           x ∈ directed_edges row.
Proof.
  unfold triangle_edges. induction triangles as [|t ts IH]; intros Hx.
  - inversion Hx.
  - cbn [map concat] in Hx. apply elem_of_app in Hx as [Hx|Hx].
    + destruct (np_get (simplices tri) t) as [row|e] eqn:Hrow; [|inversion Hx].
      exists t, row. split; [left|auto].
    + destruct (IH Hx) as (t' & row & Ht & Hrow & Hin).
      exists t', row. split; [right; exact Ht|auto].
Qed.

Lemma boundary_fold_origin (es : list Edge) :
  ∀ edges edges' x,
    foldM (λ edges e, add_edge edges e.1 e.2) edges es = Ok edges' →
    x ∈ edges' → x ∈ edges ∨ x ∈ es.
Proof.
  induction es as [|[c d] es IH]; intros edges edges' x Hrun Hx.
  - simpl in Hrun. apply Ok_inj in Hrun. subst edges'. auto.
  - simpl in Hrun. apply bind_Ok in Hrun as (e1 & Hstep & Hrun).
    destruct (IH _ _ _ Hrun Hx) as [H1|H1].
    + destruct (add_edge_origin _ _ _ _ _ Hstep H1) as [H0| ->].
      * auto.
      * right. left.
    + right. right. exact H1.
Qed.

Lemma clean_boundary_nil : clean_boundary [].
Proof.
  split; [constructor|]. intros a b _ Hin. inversion Hin.
Qed.

(** X11: the collection [find_local_boundary] returns is clean: no
    directed edge is listed twice, no edge is listed together with its
    reverse, and every listed edge is a directed edge of one of the given
    triangles. *)
Theorem find_local_boundary_clean :
  ∀ (tri : Delaunay) (triangles : list Z) (edges : list Edge),
    find_local_boundary tri triangles = Ok edges →
    NoDup edges ∧
    (∀ a b, a ≠ b → (a, b) ∈ edges → (b, a) ∉ edges) ∧
    (∀ x, x ∈ edges →
          ∃ t row, t ∈ triangles ∧ np_get (simplices tri) t = Ok row ∧
                   x ∈ directed_edges row).
Proof.
  intros tri triangles edges Hrun.
  apply find_local_boundary_Ok in Hrun as [_ Hfold].
  assert (clean_boundary edges) as [Hnd Hrev].
  { apply (foldM_keeps (λ edges e, add_edge edges e.1 e.2) clean_boundary
             (triangle_edges tri triangles)) with (s := []).
    - intros s x s' Hs Hstep. exact (add_edge_clean _ _ _ _ Hs Hstep).
    - exact clean_boundary_nil.
    - exact Hfold. }
  split; [exact Hnd|]. split; [exact Hrev|].
  intros x Hx. apply triangle_edges_origin.
  destruct (boundary_fold_origin _ _ _ _ Hfold Hx) as [H0|H1];
    [inversion H0 | exact H1].
Qed.

(** The theorem above at the unit square. *)
Lemma find_local_boundary_clean_witness :
  NoDup [(0, 1); (1, 2); (2, 3); (3, 0)]%Z ∧
  (∀ a b : Z, a ≠ b → (a, b) ∈ [(0, 1); (1, 2); (2, 3); (3, 0)]%Z →
              (b, a) ∉ [(0, 1); (1, 2); (2, 3); (3, 0)]%Z).
Proof.
  destruct (find_local_boundary_clean unit_square [0; 1]%Z
              [(0, 1); (1, 2); (2, 3); (3, 0)]%Z eq_refl) as (Hnd & Hrev & _).
  split; assumption.
Defined.

(** X12: an undirected edge is on the returned boundary exactly when it
    occurs an odd number of times among the edges of the given triangles;
    in particular an edge shared by two of the triangles cancels and an
    edge of a single triangle stays. *)
Theorem boundary_edges_by_parity :
  ∀ (tri : Delaunay) (triangles : list Z) (edges : list Edge),
    find_local_boundary tri triangles = Ok edges →
    ∀ a b, a ≠ b →
      (((a, b) ∈ edges ∨ (b, a) ∈ edges) ↔
       Nat.Odd (undirected_count (triangle_edges tri triangles) a b)).
Proof.
  intros tri triangles edges Hrun a b Hab.
  apply find_local_boundary_Ok in Hrun as [_ Hfold].
  assert (clean_boundary edges) as Hclean.
  { apply (foldM_keeps (λ edges e, add_edge edges e.1 e.2) clean_boundary
             (triangle_edges tri triangles)) with (s := []).
    - intros s x s' Hs Hstep. exact (add_edge_clean _ _ _ _ Hs Hstep).
    - exact clean_boundary_nil.
    - exact Hfold. }
  rewrite (clean_boundary_count edges a b Hclean Hab).
  rewrite (boundary_fold_parity _ a b Hab _ _ Hfold).
  unfold undirected_count at 1. simpl. rewrite <- Nat.odd_spec. reflexivity.
Qed.

(** The theorem above at the unit square: the diagonal, met twice, is
    gone; the side from corner 1 to corner 2, met once, stays. *)
Lemma boundary_edges_by_parity_witness :
  ((((0, 2)%Z : Edge) ∈ [(0, 1); (1, 2); (2, 3); (3, 0)]%Z ∨
    ((2, 0)%Z : Edge) ∈ [(0, 1); (1, 2); (2, 3); (3, 0)]%Z) ↔
   Nat.Odd (undirected_count (triangle_edges unit_square [0; 1]%Z) 0 2)) ∧
  ((((1, 2)%Z : Edge) ∈ [(0, 1); (1, 2); (2, 3); (3, 0)]%Z ∨
    ((2, 1)%Z : Edge) ∈ [(0, 1); (1, 2); (2, 3); (3, 0)]%Z) ↔
   Nat.Odd (undirected_count (triangle_edges unit_square [0; 1]%Z) 1 2)).
Proof.
  split.
  - apply (boundary_edges_by_parity unit_square [0; 1]%Z _ eq_refl 0%Z 2%Z). lia.
  - apply (boundary_edges_by_parity unit_square [0; 1]%Z _ eq_refl 1%Z 2%Z). lia.
Defined.

Lemma triangle_edges_perm (tri : Delaunay) (triangles triangles' : list Z) :
  Permutation triangles triangles' →
  Permutation (triangle_edges tri triangles) (triangle_edges tri triangles').
Proof.
  unfold triangle_edges. induction 1 as [|t l l' _ IH|t t' l|l l' l'' _ IH1 _ IH2].
  - constructor.
  - cbn [map concat]. apply Permutation_app_head. exact IH.
  - cbn [map concat]. rewrite !app_assoc.
    apply Permutation_app_tail, Permutation_app_comm.
  - exact (Permutation_trans IH1 IH2).
Qed.

(** X13: which undirected edges are on the boundary does not depend on
    the order in which the triangles are listed. *)
Theorem boundary_order_independent :
  ∀ (tri : Delaunay) (triangles triangles' : list Z) (edges edges' : list Edge),
    Permutation triangles triangles' →
    find_local_boundary tri triangles = Ok edges →
    find_local_boundary tri triangles' = Ok edges' →
    ∀ a b, a ≠ b →
      (((a, b) ∈ edges ∨ (b, a) ∈ edges) ↔ ((a, b) ∈ edges' ∨ (b, a) ∈ edges')).
Proof.
  intros tri triangles triangles' edges edges' Hperm Hrun Hrun' a b Hab.
  apply find_local_boundary_Ok in Hrun as [_ Hfold].
  apply find_local_boundary_Ok in Hrun' as [_ Hfold'].
  assert (∀ es e0, foldM (λ edges e, add_edge edges e.1 e.2) [] es = Ok e0 →
                   clean_boundary e0) as Hclean.
  { intros es e0 H.
    apply (foldM_keeps (λ edges e, add_edge edges e.1 e.2) clean_boundary es)
      with (s := []).
    - intros s x s' Hs Hstep. exact (add_edge_clean _ _ _ _ Hs Hstep).
    - exact clean_boundary_nil.
    - exact H. }
  rewrite (clean_boundary_count edges a b (Hclean _ _ Hfold) Hab).
  rewrite (clean_boundary_count edges' a b (Hclean _ _ Hfold') Hab).
  rewrite (boundary_fold_parity _ a b Hab _ _ Hfold).
  rewrite (boundary_fold_parity _ a b Hab _ _ Hfold').
  assert (Permutation (triangle_edges tri triangles) (triangle_edges tri triangles'))
    as Hedges.
  { exact (triangle_edges_perm tri _ _ Hperm). }
  unfold undirected_count.
  pose proof (proj1 (Permutation_count_occ Edge_eq_dec _ _) Hedges) as Hcount.
  rewrite (Hcount (a, b)), (Hcount (b, a)).
  reflexivity.
Qed.

(** The theorem above at the unit square, its two triangles listed in
    either order. *)
Lemma boundary_order_independent_witness :
  (((1, 2)%Z : Edge) ∈ [(0, 1); (1, 2); (2, 3); (3, 0)]%Z ∨
   ((2, 1)%Z : Edge) ∈ [(0, 1); (1, 2); (2, 3); (3, 0)]%Z) ↔
  (((1, 2)%Z : Edge) ∈ [(2, 3); (3, 0); (0, 1); (1, 2)]%Z ∨
   ((2, 1)%Z : Edge) ∈ [(2, 3); (3, 0); (0, 1); (1, 2)]%Z).
Proof.
  apply (boundary_order_independent unit_square [0; 1]%Z [1; 0]%Z).
  - apply perm_swap.
  - reflexivity.
  - reflexivity.
  - lia.
Defined.

(** ** Ordering a boundary *)

Lemma linked_tail (x : Edge) (chain : list Edge) :
  linked (x :: chain) → linked chain.
Proof.
  intros H i a b Ha Hb. exact (H (S i) a b Ha Hb).
Qed.

(** When the pool is a reordering of a chain that continues the current
    edge, and no two edges of the pool start at the same vertex, the
    traversal takes the whole pool, in the order of the chain. *)
Lemma chain_steps_complete (out : list Edge) :
  ∀ (cur : Edge) (pool out' rest : list Edge),
    chain_steps cur pool out' rest →
    Permutation pool out → linked (cur :: out) → NoDup (map fst out) →
    out' = out ∧ rest = [].
Proof.
  induction out as [|e out IH]; intros cur pool out' rest Hsteps Hperm Hlink Hnd.
  - apply Permutation_nil_r in Hperm. subst pool.
    inversion Hsteps as [c p Hno | c e l1 l2 o r Hc Hl1 Hrest]; subst.
    + auto.
    + match goal with H : _ ++ _ :: _ = [] |- _ => destruct l1; discriminate H end.
  - assert (cur.2 = e.1) as Hce by (apply (Hlink 0 cur e); reflexivity).
    inversion Hsteps as [c p Hno | c e' l1 l2 o r Hc Hl1 Hrest]; subst.
    + exfalso. apply (Hno e); [|symmetry; exact Hce].
      rewrite Hperm. left.
    + assert (e' = e) as ->.
      { assert (e' ∈ e :: out) as Hin.
        { rewrite <- Hperm. apply elem_of_app. right. left. }
        apply elem_of_cons in Hin as [Heq|Hin]; [exact Heq|]. exfalso.
        cbn [map] in Hnd. apply NoDup_cons in Hnd as [Hfresh _].
        apply Hfresh. replace e.1 with e'.1 by congruence.
        apply list_elem_of_fmap. exists e'. auto. }
      assert (Permutation (l1 ++ l2) out) as Hperm'.
      { symmetry. apply (Permutation_cons_app_inv l1 l2 (a := e)).
        symmetry. exact Hperm. }
      cbn [map] in Hnd. apply NoDup_cons in Hnd as [_ Hnd].
      destruct (IH e (l1 ++ l2) o rest Hrest Hperm' (linked_tail _ _ Hlink) Hnd)
        as [-> ->].
      auto.
Qed.

(** X14: [order_edges] puts a shuffled boundary back in order.  When the
    edges after the first are a reordering of a chain that continues the
    first edge, and no two of them start at the same vertex, the call
    returns the first edge followed by exactly that chain: every edge is
    used, and an ordered boundary is returned unchanged. *)
Theorem order_edges_recovers_chain :
  ∀ (first : Edge) (others out : list Edge),
    Permutation others out →
    linked (first :: out) →
    NoDup (map fst out) →
    order_edges (first :: others) = Ok (first :: out).
Proof.
  intros first others out Hperm Hlink Hnd.
  destruct (order_loop_chain (length others) first others [first])
    as (out' & rest & Hrun & Hchain); [lia|].
  destruct (chain_steps_complete out first others out' rest Hchain Hperm Hlink Hnd)
    as [-> _].
  unfold order_edges. simpl. rewrite drop_0. exact Hrun.
Qed.

(** The theorem above at the shuffled boundary of the unit square. *)
Lemma order_edges_recovers_chain_witness :
  order_edges [(0, 1); (3, 0); (1, 2); (2, 3)]%Z
  = Ok [(0, 1); (1, 2); (2, 3); (3, 0)]%Z.
Proof.
  apply (order_edges_recovers_chain (0, 1)%Z [(3, 0); (1, 2); (2, 3)]%Z
           [(1, 2); (2, 3); (3, 0)]%Z).
  - apply Permutation_cons_app with (l1 := [(1, 2); (2, 3)]%Z) (l2 := []).
    reflexivity.
  - intros i x y Hx Hy.
    destruct i as [|[|[|i]]]; simpl in Hx, Hy;
      try discriminate Hy; injection Hx as <-; injection Hy as <-; reflexivity.
  - simpl. repeat (apply NoDup_cons; split; [rewrite ?elem_of_cons, elem_of_nil; lia|]).
    apply NoDup_nil_2.
Defined.

(** ** The local neighbour search *)

(** The loop over the candidates keeps them in the order of iteration. *)
Lemma keep_loop_sublist (tri : Delaunay) (pt : point) (l : list Z) :
  ∀ acc nn,
    foldM (λ nn neighbor,
             inside ← in_circumcircle tri pt neighbor;
             Ok (if inside : bool then nn ++ [neighbor] else nn)) acc l = Ok nn →
    nn `sublist_of` acc ++ l.
Proof.
  induction l as [|y l IH]; intros acc nn Hrun; simpl in Hrun.
  - apply Ok_inj in Hrun. subst nn. rewrite app_nil_r. reflexivity.
  - apply bind_Ok in Hrun as (acc' & Hy & Hrun).
    apply bind_Ok in Hy as (b & _ & Hacc). apply Ok_inj in Hacc. subst acc'.
    apply IH in Hrun. destruct b.
    + rewrite <- app_assoc in Hrun. exact Hrun.
    + etransitivity; [exact Hrun|].
      apply sublist_app; [reflexivity|]. apply sublist_cons. reflexivity.
Qed.

(** X15: [find_nn_triangles_point] lists no simplex twice, although a
    simplex can be reached over several neighbor rows: the candidates are
    collected in a set before they are tested. *)
Theorem find_nn_triangles_point_no_duplicates :
  ∀ (tri : Delaunay) (cur_tri : Z) (pt : point) (nn : list Z),
    find_nn_triangles_point tri cur_tri pt = Ok nn → NoDup nn.
Proof.
  intros tri cur_tri pt nn Hrun.
  unfold find_nn_triangles_point in Hrun. cbv zeta in Hrun.
  apply bind_Ok in Hrun as (C & _ & Hrun).
  apply keep_loop_sublist in Hrun.
  apply (sublist_NoDup nn (elements C)); [apply NoDup_elements | exact Hrun].
Qed.

(** The theorem above at the strip, where simplex 1 is reached both as a
    neighbor of simplex 0 and as a neighbor of simplex 2. *)
Lemma find_nn_triangles_point_no_duplicates_witness :
  ∃ nn, find_nn_triangles_point strip 0 strip_point = Ok nn ∧ NoDup nn.
Proof.
  destruct strip_result as (nn & Hnn & _). exists nn. split; [exact Hnn|].
  exact (find_nn_triangles_point_no_duplicates strip 0 strip_point nn Hnn).
Defined.






(** ** The discovery pass *)

Lemma ascending_snoc (l : list nat) (k : nat) :
  ascending l → (∀ x, x ∈ l → x < k) → ascending (l ++ [k]).
Proof.
  intros Hasc Hbound a b i j Ha Hb Hab.
  destruct (decide (b < length l)) as [Hb'|Hb'].
  - rewrite lookup_app_l in Ha by lia. rewrite lookup_app_l in Hb by lia.
    exact (Hasc a b i j Ha Hb Hab).
  - pose proof (lookup_lt_Some _ _ _ Hb) as Hlen.
    rewrite length_app in Hlen. cbn [length] in Hlen.
    assert (b = length l) as -> by lia.
    rewrite lookup_app_r in Hb by lia. rewrite Nat.sub_diag in Hb.
    injection Hb as <-.
    rewrite lookup_app_l in Ha by lia.
    apply Hbound. apply list_elem_of_lookup. eauto.
Qed.

Lemma hits_at_most_once (in_tri : list bool) (qs : list nat) (g : nat) :
  NoDup qs → hits in_tri qs g ≤ 1.
Proof.
  intros Hnd. unfold hits. case_bool_decide; [|lia].
  apply NoDup_ListNoDup in Hnd.
  apply (proj1 (NoDup_count_occ Nat.eq_dec qs) Hnd g).
Qed.

Section AscendingEntries.

Variable kd : list point → point → fval → list nat.
Variable tri : Delaunay.
Variable data : list point.
Hypothesis kd_once : kd_nodup kd.

Lemma visit_simplex_ascending (k : nat) (members members' : gmap nat (list nat))
    (info info' : gmap nat TriangleInfo) (s : Z * Z * Z) :
  discovery_state kd tri data k members info →
  (∀ g l, members !! g = Some l → ascending l) →
  visit_simplex kd tri data (in_triangulation tri data) (members, info) (k, s)
    = Ok (members', info') →
  ∀ g l, members' !! g = Some l → ascending l.
Proof.
  intros Hst Hasc Hvisit g l Hl.
  apply visit_simplex_Ok in Hvisit as (ps & c & rad & _ & _ & _ & _ & Hloop).
  rewrite (append_loop_lookup _ _ _ _ _ Hloop g) in Hl.
  destruct (members !! g) as [l0|] eqn:Hl0; [|discriminate Hl].
  cbn [fmap option_fmap option_map] in Hl. injection Hl as <-.
  pose proof (hits_at_most_once (in_triangulation tri data) (kd data c rad) g
                (kd_once data c rad)) as Hle.
  destruct (hits (in_triangulation tri data) (kd data c rad) g) as [|[|h]];
    [| |lia].
  - simpl. rewrite app_nil_r. exact (Hasc g l0 Hl0).
  - simpl. apply ascending_snoc; [exact (Hasc g l0 Hl0)|].
    intros x Hx. exact (ds_bound _ _ _ _ _ _ Hst g l0 x Hl0 Hx).
Qed.

Lemma discovery_ascending (l : list (Z * Z * Z)) :
  ∀ (k : nat) (members members' : gmap nat (list nat))
    (info info' : gmap nat TriangleInfo),
    (∀ j s, l !! j = Some s → simplices tri !! (k + j) = Some s) →
    discovery_state kd tri data k members info →
    (∀ g l, members !! g = Some l → ascending l) →
    foldM (visit_simplex kd tri data (in_triangulation tri data))
          (members, info) (zip (seq k (length l)) l) = Ok (members', info') →
    ∀ g l, members' !! g = Some l → ascending l.
Proof.
  induction l as [|s l IH]; intros k members members' info info' Hl Hst Hasc Hrun.
  - simpl in Hrun. apply Ok_inj in Hrun. injection Hrun as <- <-. exact Hasc.
  - change (zip (seq k (length (s :: l))) (s :: l))
      with ((k, s) :: zip (seq (S k) (length l)) l) in Hrun.
    rewrite foldM_cons in Hrun.
    apply bind_Ok in Hrun as ([m1 info1] & Hvisit & Hrun).
    apply (IH (S k) m1 members' info1 info').
    + intros j s' Hj. rewrite Nat.add_succ_comm. apply Hl. exact Hj.
    + apply (visit_simplex_state kd tri data k members m1 info info1 s).
      * specialize (Hl 0 s eq_refl). rewrite Nat.add_0_r in Hl. exact Hl.
      * exact Hst.
      * exact Hvisit.
    + exact (visit_simplex_ascending k members m1 info info1 s Hst Hasc Hvisit).
    + exact Hrun.
Qed.

End AscendingEntries.

(** The discovery pass on the unit square completes. *)
Lemma unit_square_discovery :
  ∃ members info,
    find_natural_neighbors ball_query unit_square unit_square_grid
      = Ok (members, info).
Proof.
  destruct (discovery_total ball_query unit_square unit_square_grid
              (simplices unit_square) ball_query_in_range) with
    (k := 0) (members := empty_members (length unit_square_grid))
    (info := (∅ : gmap nat TriangleInfo)) as [[members info] Hrun].
  - intros s Hs. destruct (valid_simplices_unit_square s Hs) as [ps Hps].
    exists ps. split; [exact Hps|]. intros Hz.
    apply unit_square_no_degenerate. exists s, ps.
    split; [exact Hs|]. split; [exact Hps|].
    apply triangle_area_zero_iff. exact Hz.
  - intros g.
    apply (ds_keys _ _ _ _ _ _
             (discovery_start ball_query unit_square unit_square_grid)).
  - exists members, info. exact Hrun.
Qed.

(** X17: every entry of the membership map lists indices of simplices of
    the triangulation, in strictly ascending order: the simplices are
    visited in order and each is appended at most once to an entry (the
    radius query reporting each grid point at most once). *)
Theorem membership_entries_ascending :
  ∀ (kd : list point → point → fval → list nat) (tri : Delaunay)
    (grid_points : list point) (members : gmap nat (list nat))
    (info : gmap nat TriangleInfo),
    kd_nodup kd →
    find_natural_neighbors kd tri grid_points = Ok (members, info) →
    ∀ g l, members !! g = Some l →
           ascending l ∧ ∀ i, i ∈ l → i < length (simplices tri).
Proof.
  intros kd tri grid_points members info Hnd Hrun g l Hl. split.
  - unfold find_natural_neighbors, enumerate in Hrun. cbv zeta in Hrun.
    apply (discovery_ascending kd tri grid_points Hnd (simplices tri) 0
             (empty_members (length grid_points)) members ∅ info) with (g := g).
    + intros j s Hj. exact Hj.
    + apply discovery_start.
    + intros g0 l0 Hl0. rewrite empty_members_lookup in Hl0.
      case_bool_decide; [|discriminate Hl0]. injection Hl0 as <-.
      intros a b i j Ha. discriminate Ha.
    + exact Hrun.
    + exact Hl.
  - intros i Hi.
    pose proof (find_natural_neighbors_state kd tri grid_points members info Hrun)
      as Hst.
    exact (ds_bound _ _ _ _ _ _ Hst g l i Hl Hi).
Qed.

(** The theorem above at the unit square. *)
Lemma membership_entries_ascending_witness :
  ∃ members info,
    find_natural_neighbors ball_query unit_square unit_square_grid
      = Ok (members, info) ∧
    ∀ g l, members !! g = Some l → ascending l ∧ ∀ i, i ∈ l → i < 2.
Proof.
  destruct unit_square_discovery as (members & info & Hrun).
  exists members, info. split; [exact Hrun|].
  exact (membership_entries_ascending ball_query unit_square unit_square_grid
           members info ball_query_nodup Hrun).
Defined.

Section Circumdisc.
Local Open Scope R_scope.





End Circumdisc.

Section LocalWithinGlobal.
Local Open Scope R_scope.




End LocalWithinGlobal.

(** ** Radius queries *)

Section RadiusQueryLaws.
Local Open Scope R_scope.









End RadiusQueryLaws.

(** ** Moving a triangle *)

Section TranslationLaws.
Local Open Scope R_scope.





End TranslationLaws.
